(** * db.py: per-thread connection context and nested transaction scopes

    A shallow embedding of [src/db.py] (one thread of it) and the proofs of
    its specification.  Python objects become records, the module globals
    [engine] and [_db_ctx] become fields of a [world], methods become
    functions in a state-and-exception monad, and the pymysql driver, an
    external collaborator, is an oracle that decides from the history of the
    run which of its calls fail.  Logging and the timing in [_profiling] have
    no effect on the state and are left out. *)

From stdpp Require Import gmap strings list.
From Stdlib Require Import ZArith Lia Ascii.

Local Open Scope Z_scope.

(** ** Python values and exceptions *)

(** [VClassAttr name] is what the class gives for [name], bound to the
    object: a method of [dict], say. *)
Inductive pyval : Type :=
  | VNone
  | VBool (b : bool)
  | VInt (z : Z)
  | VStr (s : string)
  | VClassAttr (name : string).

(** The exceptions that the module raises itself ([DBError],
    [AssertionError]), that Python raises on its behalf ([AttributeError] for
    a method looked up on [None], [ValueError] for a failed unpacking,
    [KeyError] for a key that a [dict] does not have), that
    the driver raises ([DriverError]) and that the caller's own code raises
    inside a scope ([BodyError]). *)
Inductive exn : Type :=
  | DBError (msg : string)
  | AttributeError
  | AssertionError (msg : string)
  | ValueError
  | KeyError
  | DriverError
  | BodyError.

Inductive outcome (A : Type) : Type :=
  | Ret (a : A)
  | Raise (e : exn).
Arguments Ret {A} a.
Arguments Raise {A} e.

Definition raised {A} (o : outcome A) : bool :=
  match o with Ret _ => false | Raise _ => true end.

(** [exc_type] as [__exit__] receives it: [None] when the body completed. *)
Definition exc_of {A} (o : outcome A) : option exn :=
  match o with Ret _ => None | Raise e => Some e end.

(** ** A state and exception monad *)

Definition M (S A : Type) : Type := S -> outcome A * S.

Definition ret {S A} (a : A) : M S A := fun s => (Ret a, s).

Definition raise {S A} (e : exn) : M S A := fun s => (Raise e, s).

Definition bind {S A B} (m : M S A) (k : A -> M S B) : M S B :=
  fun s => match m s with
           | (Ret a, s') => k a s'
           | (Raise e, s') => (Raise e, s')
           end.

Definition gets {S A} (f : S -> A) : M S A := fun s => (Ret (f s), s).

Definition modify {S} (f : S -> S) : M S unit := fun s => (Ret tt, f s).

(** [try: body finally: fin]: [fin] runs on every path; when it raises, its
    exception replaces the outcome of [body]. *)
Definition try_finally {S A} (body : M S A) (fin : M S unit) : M S A :=
  fun s => let '(o, s1) := body s in
           match fin s1 with
           | (Ret _, s2) => (o, s2)
           | (Raise e, s2) => (Raise e, s2)
           end.

(** [try: body except: handler] with a bare [except]. *)
Definition try_except {S A} (body : M S A) (handler : M S A) : M S A :=
  fun s => match body s with
           | (Ret a, s1) => (Ret a, s1)
           | (Raise _, s1) => handler s1
           end.

(** [with mgr: body] for a context manager whose [__exit__] returns [None]:
    the body's exception, if any, is passed to [__exit__] and re-raised after
    it, unless [__exit__] raises itself. *)
Definition with_ {S C A} (enter : M S C) (exit_ : C -> option exn -> M S unit)
    (body : M S A) : M S A :=
  fun s => match enter s with
           | (Raise e, s1) => (Raise e, s1)
           | (Ret self, s1) =>
               let '(o, s2) := body s1 in
               match exit_ self (exc_of o) s2 with
               | (Ret _, s3) => (o, s3)
               | (Raise e, s3) => (Raise e, s3)
               end
           end.

Declare Scope py_scope.
Delimit Scope py_scope with py.
Notation "x <- m ;; k" := (bind m (fun x => k))
  (at level 100, m at next level, right associativity) : py_scope.
Notation "m ;;; k" := (bind m (fun _ => k))
  (at level 100, right associativity) : py_scope.
Local Open Scope py_scope.

(** ** The driver and the log of the run *)

(** Calls into pymysql.  A raw connection and the cursors made from it are
    named by the number the connection got when it was opened. *)
Inductive drv_op : Type :=
  | OpConnect
  | OpCursor
  | OpExecute (sql : string) (args : list pyval)
  | OpCommit
  | OpRollback
  | OpCursorClose
  | OpClose.

(** Calls of the module's own methods that the properties speak about. They
    are written to the log when the method is entered and are read by no
    code. *)
Inductive method : Type :=
  | CtxInit
  | CtxCleanup
  | TxExit (body_raised : bool)
  | TxCommit
  | TxRollback.

Inductive event : Type :=
  | EvDrv (c : nat) (op : drv_op) (ok : bool)
  | EvCall (m : method).

(** The driver: whether the call [op] on connection [c] raises after the
    history [t], and the [rowcount] a cursor shows after it. *)
Record driver : Type := {
  drv_fails : list event -> nat -> drv_op -> bool;
  drv_rowcount : list event -> Z
}.

(** ** The objects *)

(** [_Engine]: the closure that calls [pymysql.connect] with the keyword
    arguments [params], given by the [params] it captured. *)
Record Engine : Type := { _connect : gmap string pyval }.

(** [_LazyConnection]: [connection] is [None] until the first cursor. [lz_id]
    is the identity of the instance. *)
Record LazyConnection : Type := {
  lz_id : nat;
  lz_connection : option nat
}.

(** [_Dbctx], the thread-local context. *)
Record Dbctx : Type := {
  connection : option LazyConnection;
  transactions : Z
}.

(** The module globals of one thread, the log, and the next fresh object
    identity. *)
Record world : Type := {
  engine : option Engine;
  _db_ctx : Dbctx;
  trace : list event;
  next_id : nat
}.

Definition set_engine (e : option Engine) (w : world) : world :=
  {| engine := e; _db_ctx := _db_ctx w; trace := trace w; next_id := next_id w |}.

Definition set_ctx (c : Dbctx) (w : world) : world :=
  {| engine := engine w; _db_ctx := c; trace := trace w; next_id := next_id w |}.

Definition add_event (e : event) (w : world) : world :=
  {| engine := engine w; _db_ctx := _db_ctx w; trace := trace w ++ [e];
     next_id := next_id w |}.

Definition bump_id (w : world) : world :=
  {| engine := engine w; _db_ctx := _db_ctx w; trace := trace w;
     next_id := S (next_id w) |}.

Definition set_connection (l : option LazyConnection) (c : Dbctx) : Dbctx :=
  {| connection := l; transactions := transactions c |}.

Definition set_transactions (n : Z) (c : Dbctx) : Dbctx :=
  {| connection := connection c; transactions := n |}.

Definition set_lz_connection (r : option nat) (l : LazyConnection) : LazyConnection :=
  {| lz_id := lz_id l; lz_connection := r |}.

(** The state of a fresh thread in a fresh process: [engine = None],
    [_db_ctx = _Dbctx()]. *)
Definition fresh_ctx : Dbctx := {| connection := None; transactions := 0 |}.

Definition fresh_world : world :=
  {| engine := None; _db_ctx := fresh_ctx; trace := []; next_id := 0 |}.

Definition mark (m : method) : M world unit := modify (add_event (EvCall m)).

(** ** The embedding of [db.py] *)

Section Db.

Variable drv : driver.

(** A call into the driver on connection [c]: it is logged with its result
    and raises when the driver says so. *)
Definition drv_call (c : nat) (op : drv_op) : M world unit :=
  fun w => if drv_fails drv (trace w) c op
           then (Raise DriverError, add_event (EvDrv c op false) w)
           else (Ret tt, add_event (EvDrv c op true) w).

(** [_Engine.connect], called as [engine.connect()] on the module global:
    an [AttributeError] when [engine] is still [None], else a new raw
    connection from the driver. *)
Definition Engine_connect : M world nat :=
  fun w => match engine w with
           | None => (Raise AttributeError, w)
           | Some _ =>
               let c := next_id w in
               match drv_call c OpConnect (bump_id w) with
               | (Ret _, w') => (Ret c, w')
               | (Raise e, w') => (Raise e, w')
               end
           end.

(** *** [_LazyConnection]

    A method runs on its [self] and the world. *)
Definition on_world {A} (m : M world A) : M (LazyConnection * world) A :=
  fun '(self, w) => let '(o, w') := m w in (o, (self, w')).

Definition LazyConnection_new : M world LazyConnection :=
  fun w => (Ret {| lz_id := next_id w; lz_connection := None |}, bump_id w).

Definition LazyConnection_cursor : M (LazyConnection * world) nat :=
  self <- gets fst ;;
  (match lz_connection self with
   | None =>
       (_connection <- on_world Engine_connect ;;
        modify (fun '(self, w) => (set_lz_connection (Some _connection) self, w)))
   | Some _ => ret tt
   end) ;;;
  self <- gets fst ;;
  match lz_connection self with
  | None => raise AttributeError
  | Some c => (on_world (drv_call c OpCursor) ;;; ret c)
  end.

Definition LazyConnection_commit : M (LazyConnection * world) unit :=
  self <- gets fst ;;
  match lz_connection self with
  | None => raise AttributeError
  | Some c => on_world (drv_call c OpCommit)
  end.

Definition LazyConnection_rollback : M (LazyConnection * world) unit :=
  self <- gets fst ;;
  match lz_connection self with
  | None => raise AttributeError
  | Some c => on_world (drv_call c OpRollback)
  end.

Definition LazyConnection_cleanup : M (LazyConnection * world) unit :=
  self <- gets fst ;;
  match lz_connection self with
  | Some _connection =>
      (modify (fun '(self, w) => (set_lz_connection None self, w)) ;;;
       on_world (drv_call _connection OpClose))
  | None => ret tt
  end.

(** *** [_Dbctx] *)

Definition is_init (self : Dbctx) : bool :=
  negb (match connection self with None => true | Some _ => false end).

(** [_db_ctx.connection.m()]: an [AttributeError] when [connection] is
    [None]; else [m] runs on the one [_LazyConnection] the context holds,
    which keeps what [m] did to it also when [m] raises. *)
Definition call_connection {A} (m : M (LazyConnection * world) A) : M world A :=
  fun w => match connection (_db_ctx w) with
           | None => (Raise AttributeError, w)
           | Some self =>
               let '(o, (self', w')) := m (self, w) in
               (o, set_ctx (set_connection (Some self') (_db_ctx w')) w')
           end.

Definition Dbctx_init : M world unit :=
  mark CtxInit ;;;
  l <- LazyConnection_new ;;
  modify (fun w => set_ctx (set_connection (Some l) (_db_ctx w)) w) ;;;
  modify (fun w => set_ctx (set_transactions 0 (_db_ctx w)) w).

Definition Dbctx_cleanup : M world unit :=
  mark CtxCleanup ;;;
  call_connection LazyConnection_cleanup ;;;
  modify (fun w => set_ctx (set_connection None (_db_ctx w)) w).

Definition Dbctx_cursor : M world nat :=
  call_connection LazyConnection_cursor.

(** *** [_ConnectionCtx] and [with_connection] *)

Record ConnectionCtx : Type := { should_cleanup : bool }.

Definition ConnectionCtx_enter : M world ConnectionCtx :=
  init <- gets (fun w => is_init (_db_ctx w)) ;;
  if negb init
  then (Dbctx_init ;;; ret {| should_cleanup := true |})
  else ret {| should_cleanup := false |}.

Definition ConnectionCtx_exit (self : ConnectionCtx) (exc_type : option exn)
    : M world unit :=
  if should_cleanup self then Dbctx_cleanup else ret tt.

Definition with_connection {A} (func : M world A) : M world A :=
  with_ ConnectionCtx_enter ConnectionCtx_exit func.

(** *** [_Transactions] and [with_transaction] *)

Record Transactions : Type := { should_close_conn : bool }.

Definition Transactions_enter : M world Transactions :=
  init <- gets (fun w => is_init (_db_ctx w)) ;;
  self <- (if negb init
           then (Dbctx_init ;;; ret {| should_close_conn := true |})
           else ret {| should_close_conn := false |}) ;;
  modify (fun w => set_ctx (set_transactions (transactions (_db_ctx w) + 1) (_db_ctx w)) w) ;;;
  ret self.

Definition Transactions_commit : M world unit :=
  mark TxCommit ;;;
  try_except (call_connection LazyConnection_commit)
             (call_connection LazyConnection_rollback).

Definition Transactions_rollback : M world unit :=
  mark TxRollback ;;;
  call_connection LazyConnection_rollback.

(** The [try] block of [__exit__]. *)
Definition Transactions_exit_try (exc_type : option exn) : M world unit :=
  t <- gets (fun w => transactions (_db_ctx w)) ;;
  if t =? 0
  then match exc_type with
       | None => Transactions_commit
       | Some _ => Transactions_rollback
       end
  else ret tt.

Definition Transactions_exit (self : Transactions) (exc_type : option exn)
    : M world unit :=
  mark (TxExit (bool_decide (exc_type ≠ None))) ;;;
  modify (fun w => set_ctx (set_transactions (transactions (_db_ctx w) - 1) (_db_ctx w)) w) ;;;
  try_finally
    (Transactions_exit_try exc_type)
    (if should_close_conn self then Dbctx_cleanup else ret tt).

(** The wrapper returns from inside the [with] block, so the [_profiling]
    call after it never runs. *)
Definition with_transaction {A} (func : M world A) : M world A :=
  with_ Transactions_enter Transactions_exit func.

(** *** The statement executors [_update], [update], [insert] *)

(** [sql.replace('?', '%s')] *)
Fixpoint replace_qmark (sql : string) : string :=
  match sql with
  | EmptyString => EmptyString
  | String c rest =>
      if Ascii.eqb c "?"%char
      then String "%"%char (String "s"%char (replace_qmark rest))
      else String c (replace_qmark rest)
  end.

(** The body of [_update].  When the cursor cannot be had, [cursor] is still
    [None] and the [finally] clause closes nothing. *)
Definition _update_body (sql : string) (args : list pyval) : M world Z :=
  let sql := replace_qmark sql in
  fun w => match call_connection LazyConnection_cursor w with
           | (Raise e, w1) => (Raise e, w1)
           | (Ret cursor, w1) =>
               try_finally
                 (drv_call cursor (OpExecute sql args) ;;;
                  row_count <- gets (fun w => drv_rowcount drv (trace w)) ;;
                  t <- gets (fun w => transactions (_db_ctx w)) ;;
                  (if t =? 0 then call_connection LazyConnection_commit else ret tt) ;;;
                  ret row_count)
                 (drv_call cursor OpCursorClose) w1
           end.

Definition _update (sql : string) (args : list pyval) : M world Z :=
  with_connection (_update_body sql args).

Definition update (sql : string) (args : list pyval) : M world Z :=
  _update sql args.

(** [insert]: the keyword arguments [kwargs] in the order of their items;
    unzipping no items into [cols, args] is a [ValueError]. *)
Definition insert_sql (table_name : string) (cols : list string) : string :=
  "insert into `" +:+ table_name +:+ "` (" +:+
  String.concat "," (map (fun col => "`" +:+ col +:+ "`") cols) +:+
  ") values(" +:+ String.concat "," (map (fun _ => "?") cols) +:+ ")".

Definition insert (table_name : string) (kwargs : list (string * pyval)) : M world Z :=
  match kwargs with
  | [] => raise ValueError
  | _ => let cols := kwargs.*1 in
         let args := kwargs.*2 in
         _update (insert_sql table_name cols) args
  end.

(** *** [create_engine] *)

Definition default_params : list (string * pyval) :=
  [("charset", VStr "utf8mb4"); ("use_unicode", VStr "True")].

Definition create_engine (username password database host port : pyval)
    (kwargs : gmap string pyval) : M world unit :=
  e <- gets engine ;;
  match e with
  | Some _ => raise (DBError "Engine is already initialized")
  | None =>
      let params : gmap string pyval :=
        <["port" := port]> (<["host" := host]> (<["db" := database]>
          (<["passwd" := password]> (<["user" := username]> ∅)))) in
      let '(params, kwargs) :=
        foldl (fun '(params, kwargs) '(k, v) =>
                 (<[k := default v (kwargs !! k)]> params, delete k kwargs))
              (params, kwargs) default_params in
      let params := kwargs ∪ params in
      modify (set_engine (Some {| _connect := params |}))
  end.

End Db.

(** ** [Field]: a [dict] with attribute access *)

(** A [Field] is the [dict] it inherits from; its keys are the column names.
    Attribute assignment never reaches the instance's own [__dict__], because
    [__setattr__] is overridden, so that one stays empty and is left out. *)
Definition Field___init__ (keys : list string) (values : list pyval)
    (kwargs : gmap string pyval) : gmap string pyval :=
  foldl (fun self '(k, v) => <[k := v]> self) kwargs (zip keys values).

(** [self[item]] of [dict]. *)
Definition dict___getitem__ (item : string) : M (gmap string pyval) pyval :=
  fun self => match self !! item with
              | Some v => (Ret v, self)
              | None => (Raise KeyError, self)
              end.

Definition Field___getattr__ (item : string) : M (gmap string pyval) pyval :=
  fun self => match dict___getitem__ item self with
              | (Raise KeyError, self') =>
                  (Raise (AssertionError
                            ("'Field' object has not attribute '" +:+ item +:+ "'")),
                   self')
              | r => r
              end.

Definition Field___setattr__ (key : string) (value : pyval)
    : M (gmap string pyval) unit :=
  modify (fun self => <[key := value]> self).

(** The methods of [dict] that every version of Python defines. *)
Definition dict_methods : list string :=
  ["clear"; "copy"; "fromkeys"; "get"; "items"; "keys"; "pop"; "popitem";
   "setdefault"; "update"; "values"].

(** The special names that the classes [Field], [dict] and [object] define
    in CPython 3.7; later versions add some. *)
Definition py3_special_names : list string :=
  ["__class__"; "__contains__"; "__delattr__"; "__delitem__"; "__dict__";
   "__dir__"; "__doc__"; "__eq__"; "__format__"; "__ge__"; "__getattr__";
   "__getattribute__"; "__getitem__"; "__gt__"; "__hash__"; "__init__";
   "__init_subclass__"; "__iter__"; "__le__"; "__len__"; "__lt__";
   "__module__"; "__ne__"; "__new__"; "__reduce__"; "__reduce_ex__";
   "__repr__"; "__setattr__"; "__setitem__"; "__sizeof__"; "__str__";
   "__subclasshook__"; "__weakref__"].

Definition py3_special (name : string) : bool :=
  bool_decide (name ∈ py3_special_names).

Section FieldAttributes.

(** The names, besides [dict_methods], that the running Python finds on the
    class or its bases: the special names and what else that version adds. *)
Variable special : string -> bool.

Definition class_attr (name : string) : bool :=
  bool_decide (name ∈ dict_methods) || special name.

(** The expression [r.name]: Python looks the name up on the class first and
    calls [__getattr__] only when that lookup fails. *)
Definition getattr (name : string) : M (gmap string pyval) pyval :=
  if class_attr name then ret (VClassAttr name) else Field___getattr__ name.

(** The statement [r.name = value]. *)
Definition setattr (name : string) (value : pyval) : M (gmap string pyval) unit :=
  Field___setattr__ name value.

End FieldAttributes.

(** ** Caller code *)

(** The code of a caller, as far as the scopes see it. *)
Inductive prog : Type :=
  | Pass
  | RaiseStmt
  | Seq (p q : prog)
  | TryExcept (p q : prog)
  | Update (sql : string) (args : list pyval)
  | Insert (table_name : string) (kwargs : list (string * pyval))
  | WithConnection (p : prog)
  | WithTransaction (p : prog).

Fixpoint run (drv : driver) (p : prog) : M world unit :=
  match p with
  | Pass => ret tt
  | RaiseStmt => raise BodyError
  | Seq p q => (run drv p ;;; run drv q)
  | TryExcept p q => try_except (run drv p) (run drv q)
  | Update sql args => (update drv sql args ;;; ret tt)
  | Insert table_name kwargs => (insert drv table_name kwargs ;;; ret tt)
  | WithConnection p => with_connection drv (run drv p)
  | WithTransaction p => with_transaction drv (run drv p)
  end.

(** No [try ... except] in the code: every exception propagates. *)
Fixpoint catch_free (p : prog) : bool :=
  match p with
  | Pass | RaiseStmt | Update _ _ | Insert _ _ => true
  | Seq p q => catch_free p && catch_free q
  | TryExcept _ _ => false
  | WithConnection p | WithTransaction p => catch_free p
  end.

(** ** What the log shows *)

Inductive decision : Type := Commit | Rollback.

(** The transaction decisions: the calls of [_Transactions.commit] and
    [_Transactions.rollback]. *)
Definition decision_of (e : event) : option decision :=
  match e with
  | EvCall TxCommit => Some Commit
  | EvCall TxRollback => Some Rollback
  | _ => None
  end.

Definition decisions (t : list event) : list decision := omap decision_of t.

(** What [__exit__] decides at depth 0 from its [exc_type]. *)
Definition decision_for (exc_type : option exn) : decision :=
  match exc_type with None => Commit | Some _ => Rollback end.

(** A log entry that is not a failed driver call. *)
Definition ev_ok (e : event) : bool :=
  match e with
  | EvDrv _ _ ok => ok
  | EvCall _ => true
  end.

(** A statement was executed, with success. *)
Definition executed (l : list event) : Prop :=
  exists c sql args, EvDrv c (OpExecute sql args) true ∈ l.


(** The exits of transaction scopes: was an exception passed in. *)
Definition tx_exit_of (e : event) : option bool :=
  match e with
  | EvCall (TxExit b) => Some b
  | _ => None
  end.

Definition tx_exits (t : list event) : list bool := omap tx_exit_of t.

(** The commit calls that reached the driver: connection and success. *)
Definition drv_commit_of (e : event) : option (nat * bool) :=
  match e with
  | EvDrv c OpCommit ok => Some (c, ok)
  | _ => None
  end.

Definition drv_commits (t : list event) : list (nat * bool) := omap drv_commit_of t.

Definition cleanup_of (e : event) : option unit :=
  match e with
  | EvCall CtxCleanup => Some tt
  | _ => None
  end.

Definition cleanups (t : list event) : list unit := omap cleanup_of t.

Definition init_of (e : event) : option unit :=
  match e with
  | EvCall CtxInit => Some tt
  | _ => None
  end.

Definition inits (t : list event) : list unit := omap init_of t.

(** Calls into the driver. *)
Definition is_drv (e : event) : Prop := exists c op ok, e = EvDrv c op ok.

(** Calls of [close] on a connection. *)
Definition is_close (e : event) : Prop := exists c ok, e = EvDrv c OpClose ok.

(** Driver calls other than [commit]. *)
Definition is_plain_drv (e : event) : Prop :=
  exists c op ok, e = EvDrv c op ok /\ op <> OpCommit.

(** ** Scopes as a machine: one enter or exit at a time *)

Inductive scope : Type :=
  | ConnScope (self : ConnectionCtx)
  | TxScope (self : Transactions).

Inductive action : Type :=
  | EnterConnection
  | EnterTransaction
  | ExitScope (exc_type : option exn)
  | Statement (sql : string) (args : list pyval).

(** The world and the scopes that are open, innermost first. *)
Definition mstate : Type := world * list scope.

(** Exits are well nested: [ExitScope] leaves the innermost open scope, and
    there is no step when none is open. *)
Definition step (drv : driver) (a : action) (s : mstate) : option mstate :=
  let '(w, stk) := s in
  match a with
  | EnterConnection =>
      match ConnectionCtx_enter w with
      | (Ret self, w') => Some (w', ConnScope self :: stk)
      | (Raise _, w') => Some (w', stk)
      end
  | EnterTransaction =>
      match Transactions_enter w with
      | (Ret self, w') => Some (w', TxScope self :: stk)
      | (Raise _, w') => Some (w', stk)
      end
  | ExitScope exc_type =>
      match stk with
      | [] => None
      | ConnScope self :: stk' => Some (snd (ConnectionCtx_exit drv self exc_type w), stk')
      | TxScope self :: stk' => Some (snd (Transactions_exit drv self exc_type w), stk')
      end
  | Statement sql args => Some (snd (update drv sql args w), stk)
  end.

Fixpoint steps (drv : driver) (acts : list action) (s : mstate) : option mstate :=
  match acts with
  | [] => Some s
  | a :: acts' =>
      match step drv a s with
      | Some s' => steps drv acts' s'
      | None => None
      end
  end.

(** A thread starts with a context that holds no connection at depth 0. *)
Definition initial (s : mstate) : Prop :=
  _db_ctx (fst s) = fresh_ctx /\ snd s = [].

Definition reachable (drv : driver) (s : mstate) : Prop :=
  exists s0 acts, initial s0 /\ steps drv acts s0 = Some s.

Definition depth (s : mstate) : Z := transactions (_db_ctx (fst s)).

(** Did the scope create the connection on enter. *)
Definition owner (sc : scope) : bool :=
  match sc with
  | ConnScope self => should_cleanup self
  | TxScope self => should_close_conn self
  end.

(** The number of open transaction scopes. *)
Fixpoint tx_count (stk : list scope) : Z :=
  match stk with
  | [] => 0
  | ConnScope _ :: rest => tx_count rest
  | TxScope _ :: rest => 1 + tx_count rest
  end.

(** Only the outermost open scope can be the one that created the
    connection. *)
Fixpoint inner_not_owner (stk : list scope) : Prop :=
  match stk with
  | [] => True
  | sc :: rest => (rest <> [] -> owner sc = false) /\ inner_not_owner rest
  end.

(** The invariant of the machine: the depth counts the open transaction
    scopes, and while a scope is open the context holds a connection. *)
Definition minv (s : mstate) : Prop :=
  transactions (_db_ctx (fst s)) = tx_count (snd s) /\
  (snd s <> [] -> is_init (_db_ctx (fst s)) = true) /\
  inner_not_owner (snd s).

(** ** Drivers and worlds to run on *)

Definition ok_driver : driver :=
  {| drv_fails := fun _ _ _ => false; drv_rowcount := fun _ => 1 |}.

(** A driver whose [commit] always raises. *)
Definition commit_failing_driver : driver :=
  {| drv_fails := fun _ _ op => match op with OpCommit => true | _ => false end;
     drv_rowcount := fun _ => 1 |}.

(** A driver whose [commit] and [rollback] always raise. *)
Definition tx_failing_driver : driver :=
  {| drv_fails := fun _ _ op =>
       match op with OpCommit | OpRollback => true | _ => false end;
     drv_rowcount := fun _ => 1 |}.

(** A driver whose [close] always raises. *)
Definition close_failing_driver : driver :=
  {| drv_fails := fun _ _ op => match op with OpClose => true | _ => false end;
     drv_rowcount := fun _ => 1 |}.

(** The world after [create_engine] as the [__main__] block calls it. *)
Definition main_world : world :=
  snd (create_engine (VStr "root") (VStr "2014081029") (VStr "test")
         (VStr "localhost") (VInt 3306) ∅ fresh_world).

(** ** Sample inputs and the claims that fail as they are stated *)

Definition sample_sql : string := "update users set username=? where id=?".

Definition sample_args : list pyval := [VStr "kuang"; VInt 2].

(** The body of an outer transaction scope that catches what an inner
    transaction scope raises. *)
Definition caught_inner_raise : prog :=
  TryExcept (WithTransaction (Seq (Update sample_sql sample_args) RaiseStmt)) Pass.

(** What a run added to the log. *)
Definition new_events (w w' : world) : list event :=
  drop (length (trace w)) (trace w').

(** "Commit is chosen only if no scope body in the chain raised", for the
    chain that [WithTransaction p] starts in [w]. *)
Definition commit_only_if_no_body_raised (drv : driver) (p : prog) (w : world) : Prop :=
  let w' := snd (run drv (WithTransaction p) w) in
  Commit ∈ decisions (new_events w w') -> true ∉ tx_exits (new_events w w').

(** The state the machine is in after [acts]. *)
Definition state_after (drv : driver) (acts : list action) (s0 : mstate) : mstate :=
  default s0 (steps drv acts s0).

(** Inside one transaction scope, entered on a fresh thread, after one
    statement: the connection is open and the depth is 1. *)
Definition in_transaction (drv : driver) : mstate :=
  state_after drv [EnterTransaction; Statement sample_sql sample_args] (main_world, []).

Definition sample_record : gmap string pyval :=
  Field___init__ ["id"; "username"] [VInt 2; VStr "kuang"] ∅.

(** A row with a column called [keys]. *)
Definition keys_record : gmap string pyval :=
  Field___init__ ["id"; "keys"] [VInt 2; VStr "k1,k2"] ∅.

(** "No operation on a record changes its mapping", for reading and for
    assigning an attribute. *)
Definition record_read_only (special : string -> bool) (r : gmap string pyval) : Prop :=
  (forall name, snd (getattr special name r) = r) /\
  (forall name value, snd (setattr name value r) = r).

(** "[r.name] is the stored value for a column and an [AssertionError] for
    any other name." *)
Definition getattr_as_claimed (special : string -> bool) (r : gmap string pyval)
    (name : string) : Prop :=
  match r !! name with
  | Some v => fst (getattr special name r) = Ret v
  | None => exists msg, fst (getattr special name r) = Raise (AssertionError msg)
  end.

(** ** [_select], [select_one], [select] *)

(** What a cursor holds after [execute], as far as [_select] reads it: the
    column names [field[0]] of [cursor.description], with [[]] for a
    description that is [None] or empty; the rows, as tuples of values; and
    whether a fetch raises.  Fetches are not written to the log. *)
Record result_set : Type := {
  rs_description : list event -> list string;
  rs_rows : list event -> list (list pyval);
  rs_fetch_fails : list event -> bool
}.

(** What [_select] gives back.  [SelNameError] stands for the [NameError]
    that Python raises when [names] was never assigned and a row is
    built; neither the [finally] clause nor the connection scope looks at
    the exception, so it travels as a result. *)
Inductive selected : Type :=
  | SelNone
  | SelField (r : gmap string pyval)
  | SelList (rs : list (gmap string pyval))
  | SelNameError.

Section Select.

Variable drv : driver.
Variable rs : result_set.

(** [cursor.fetchone()]: the first row, or [None]. *)
Definition fetchone : M world (option (list pyval)) :=
  fun w => if rs_fetch_fails rs (trace w)
           then (Raise DriverError, w)
           else (Ret (head (rs_rows rs (trace w))), w).

(** [cursor.fetchall()] *)
Definition fetchall : M world (list (list pyval)) :=
  fun w => if rs_fetch_fails rs (trace w)
           then (Raise DriverError, w)
           else (Ret (rs_rows rs (trace w)), w).

(** [Field(keys=names, values=values)], with [names] assigned or not. *)
Definition make_field (names : option (list string)) (values : list pyval) : selected :=
  match names with
  | None => SelNameError
  | Some names => SelField (Field___init__ names values ∅)
  end.

(** The list comprehension over the rows: [names] is looked up for the first
    row, so an empty result needs no [names]. *)
Definition make_fields (names : option (list string)) (rows : list (list pyval))
    : selected :=
  match rows, names with
  | [], _ => SelList []
  | _ :: _, None => SelNameError
  | _ :: _, Some names =>
      SelList (map (fun values => Field___init__ names values ∅) rows)
  end.

Definition _select_body (sql : string) (one : bool) (args : list pyval)
    : M world selected :=
  let sql := replace_qmark sql in
  fun w => match call_connection (LazyConnection_cursor drv) w with
           | (Raise e, w1) => (Raise e, w1)
           | (Ret cursor, w1) =>
               try_finally
                 (drv_call drv cursor (OpExecute sql args) ;;;
                  description <- gets (fun w => rs_description rs (trace w)) ;;
                  let names := match description with
                               | [] => None
                               | _ :: _ => Some description
                               end in
                  if one
                  then (values <- fetchone ;;
                        match values with
                        | None | Some [] => ret SelNone
                        | Some values => ret (make_field names values)
                        end)
                  else (rows <- fetchall ;; ret (make_fields names rows)))
                 (drv_call drv cursor OpCursorClose) w1
           end.

Definition _select (sql : string) (one : bool) (args : list pyval) : M world selected :=
  with_connection drv (_select_body sql one args).

Definition select_one (sql : string) (args : list pyval) : M world selected :=
  _select sql true args.

Definition select (sql : string) (args : list pyval) : M world selected :=
  _select sql false args.

End Select.

(** ** More of what the log shows *)

(** The raw connection that the context holds open, if any. *)
Definition raw (w : world) : option nat :=
  match connection (_db_ctx w) with
  | Some lz => lz_connection lz
  | None => None
  end.

(** The connections that were opened. *)
Definition open_of (e : event) : option nat :=
  match e with
  | EvDrv c OpConnect true => Some c
  | _ => None
  end.

Definition opens (l : list event) : list nat := omap open_of l.

(** The connections on which [close] was called. *)
Definition close_of (e : event) : option nat :=
  match e with
  | EvDrv c OpClose _ => Some c
  | _ => None
  end.

Definition closes (l : list event) : list nat := omap close_of l.

(** The cursors that were handed out, and those on which [close] was
    called, each by its connection. *)
Definition cursor_open_of (e : event) : option nat :=
  match e with
  | EvDrv c OpCursor true => Some c
  | _ => None
  end.

Definition cursor_opens (l : list event) : list nat := omap cursor_open_of l.

Definition cursor_close_of (e : event) : option nat :=
  match e with
  | EvDrv c OpCursorClose _ => Some c
  | _ => None
  end.

Definition cursor_closes (l : list event) : list nat := omap cursor_close_of l.

(** The commits and rollbacks that reached the driver. *)
Definition tx_call_of (e : event) : option (nat * drv_op * bool) :=
  match e with
  | EvDrv c OpCommit ok => Some (c, OpCommit, ok)
  | EvDrv c OpRollback ok => Some (c, OpRollback, ok)
  | _ => None
  end.

Definition tx_calls (l : list event) : list (nat * drv_op * bool) := omap tx_call_of l.

(** The connection of every driver call that is made on a connection: all
    but the attempts to connect that failed. *)
Definition conn_id_of (e : event) : option nat :=
  match e with
  | EvDrv _ OpConnect false => None
  | EvDrv c _ _ => Some c
  | EvCall _ => None
  end.

Definition conn_ids (l : list event) : list nat := omap conn_id_of l.

(** All driver calls. *)
Definition drv_call_of (e : event) : option (nat * drv_op * bool) :=
  match e with
  | EvDrv c op ok => Some (c, op, ok)
  | EvCall _ => None
  end.

Definition drv_calls (l : list event) : list (nat * drv_op * bool) := omap drv_call_of l.

(** How a piece of code that runs inside an initialised context uses
    connections: it closes none; a connection that is open stays the one in
    use; it opens one only when none was open, and that one is then in the
    context; every driver call goes to the connection that the context holds
    afterwards; and every cursor it got was closed. *)
Definition conn_coherent (w : world) (l : list event) (w' : world) : Prop :=
  closes l = [] /\
  (forall c, raw w = Some c -> raw w' = Some c) /\
  opens l = (match raw w with Some _ => [] | None => option_list (raw w') end) /\
  Forall (fun c' => raw w' = Some c') (conn_ids l) /\
  cursor_opens l = cursor_closes l.

(** What a scope or statement that starts without a context did between [w]
    and [w']: it opened at most one connection, closed exactly the one it
    opened, sent every driver call to it, closed every cursor it got, and
    left no connection open in the context. *)
Definition one_connection_used (w w' : world) : Prop :=
  let l := new_events w w' in
  exists oc : option nat,
    opens l = option_list oc /\
    closes l = option_list oc /\
    Forall (fun c' => oc = Some c') (conn_ids l) /\
    cursor_opens l = cursor_closes l /\
    raw w' = None.

(** Code that keeps an initialised context initialised and uses the
    connection coherently. *)
Definition coherent_code {A} (func : M world A) : Prop :=
  forall w o w', is_init (_db_ctx w) = true -> func w = (o, w') ->
    exists l, trace w' = trace w ++ l /\ conn_coherent w l w'.

(** Caller code that issues no statement. *)
Fixpoint no_statement (p : prog) : bool :=
  match p with
  | Pass | RaiseStmt => true
  | Update _ _ | Insert _ _ => false
  | Seq p q | TryExcept p q => no_statement p && no_statement q
  | WithConnection p | WithTransaction p => no_statement p
  end.

(** How often a character occurs in a string. *)
Fixpoint count_char (ch : ascii) (s : string) : nat :=
  match s with
  | EmptyString => 0
  | String c rest => (if Ascii.eqb c ch then 1 else 0) + count_char ch rest
  end.

(** A string without the placeholder character. *)
Definition no_qmark (s : string) : Prop := count_char "?" s = 0%nat.

(** What a chain of transaction scopes sends to the driver: nothing when no
    connection was opened; one rollback when the outermost body raised; else
    one commit, or a failed commit and then a rollback; all on the
    connection [oc] of the chain. *)
Definition chain_calls (body_raised : bool) (oc : option nat)
    (calls : list (nat * drv_op * bool)) : Prop :=
  match oc with
  | None => calls = []
  | Some c =>
      if body_raised
      then exists ok, calls = [(c, OpRollback, ok)]
      else calls = [(c, OpCommit, true)] \/
           exists ok, calls = [(c, OpCommit, false); (c, OpRollback, ok)]
  end.

(** Result sets to run on: one without rows and without a description, and
    the [users] table of the [__main__] block. *)
Definition empty_result : result_set :=
  {| rs_description := fun _ => []; rs_rows := fun _ => [];
     rs_fetch_fails := fun _ => false |}.

Definition users_result : result_set :=
  {| rs_description := fun _ => ["id"; "username"];
     rs_rows := fun _ => [[VInt 2; VStr "kuang"]; [VInt 3; VStr "guo"]];
     rs_fetch_fails := fun _ => false |}.

(** * Proofs *)

Ltac unfold_monad :=
  unfold on_world, mark, bind, ret, raise, gets, modify, try_finally,
    try_except, with_ in *.

Ltac unfold_lazy :=
  unfold call_connection, LazyConnection_cleanup, LazyConnection_commit,
    LazyConnection_rollback, LazyConnection_cursor, LazyConnection_new,
    Engine_connect, drv_call in *.

Ltac crunch :=
  repeat (simpl in *;
    match goal with
    | H : (_, _) = (_, _) |- _ => inversion H; subst; clear H
    | H : context [match ?x with _ => _ end] |- _ => destruct x eqn:?
    | H : context [if ?x then _ else _] |- _ => destruct x eqn:?
    end).

(** The log after [l] more events. *)
Ltac trace_ext :=
  simpl; rewrite <- ?app_assoc; simpl;
  first [ eexists; split; [reflexivity | simpl]
        | exists []; split; [by rewrite app_nil_r | simpl] ].

Lemma decisions_app l1 l2 : decisions (l1 ++ l2) = decisions l1 ++ decisions l2.
Proof. apply omap_app. Qed.

Lemma tx_exits_app l1 l2 : tx_exits (l1 ++ l2) = tx_exits l1 ++ tx_exits l2.
Proof. apply omap_app. Qed.

Lemma cleanups_app l1 l2 : cleanups (l1 ++ l2) = cleanups l1 ++ cleanups l2.
Proof. apply omap_app. Qed.

Lemma inits_app l1 l2 : inits (l1 ++ l2) = inits l1 ++ inits l2.
Proof. apply omap_app. Qed.

Lemma drv_commits_app l1 l2 : drv_commits (l1 ++ l2) = drv_commits l1 ++ drv_commits l2.
Proof. apply omap_app. Qed.

Lemma is_drv_quiet l :
  Forall is_drv l ->
  decisions l = [] /\ tx_exits l = [] /\ cleanups l = [] /\ inits l = [].
Proof.
  induction 1 as [|e l (c & op & ok & ->) _ IH]; [done|].
  destruct IH as (? & ? & ? & ?). by repeat split.
Qed.

Lemma is_plain_drv_no_commit l : Forall is_plain_drv l -> drv_commits l = [].
Proof.
  induction 1 as [|e l (c & op & ok & -> & Hop) _ IH]; [done|].
  destruct op; simpl; congruence.
Qed.

Lemma is_plain_drv_is_drv l : Forall is_plain_drv l -> Forall is_drv l.
Proof.
  intros H. eapply Forall_impl; [exact H|].
  intros e (c & op & ok & -> & _). by exists c, op, ok.
Qed.

Lemma is_close_plain l : Forall is_close l -> Forall is_plain_drv l.
Proof.
  intros H. eapply Forall_impl; [exact H|].
  intros e (c & ok & ->). by exists c, OpClose, ok.
Qed.

Section Footprints.

Variable drv : driver.

Lemma Dbctx_init_eq w :
  Dbctx_init w =
  (Ret tt,
   {| engine := engine w;
      _db_ctx := {| connection := Some {| lz_id := next_id w; lz_connection := None |};
                    transactions := 0 |};
      trace := trace w ++ [EvCall CtxInit];
      next_id := S (next_id w) |}).
Proof. reflexivity. Qed.

Lemma ConnectionCtx_enter_nested w :
  is_init (_db_ctx w) = true ->
  ConnectionCtx_enter w = (Ret {| should_cleanup := false |}, w).
Proof. intros H. unfold ConnectionCtx_enter. unfold_monad. by rewrite H. Qed.

Lemma ConnectionCtx_enter_outer w :
  is_init (_db_ctx w) = false ->
  ConnectionCtx_enter w = (Ret {| should_cleanup := true |}, snd (Dbctx_init w)).
Proof. intros H. unfold ConnectionCtx_enter. unfold_monad. by rewrite H. Qed.

Lemma Transactions_enter_nested w :
  is_init (_db_ctx w) = true ->
  Transactions_enter w =
  (Ret {| should_close_conn := false |},
   set_ctx (set_transactions (transactions (_db_ctx w) + 1) (_db_ctx w)) w).
Proof. intros H. unfold Transactions_enter. unfold_monad. by rewrite H. Qed.

Lemma Transactions_enter_outer w :
  is_init (_db_ctx w) = false ->
  Transactions_enter w =
  (Ret {| should_close_conn := true |},
   {| engine := engine w;
      _db_ctx := {| connection := Some {| lz_id := next_id w; lz_connection := None |};
                    transactions := 1 |};
      trace := trace w ++ [EvCall CtxInit];
      next_id := S (next_id w) |}).
Proof. intros H. unfold Transactions_enter. unfold_monad. by rewrite H. Qed.

Lemma Dbctx_cleanup_spec w o w' :
  Dbctx_cleanup drv w = (o, w') ->
  transactions (_db_ctx w') = transactions (_db_ctx w) /\
  engine w' = engine w /\
  (o = Ret tt -> connection (_db_ctx w') = None) /\
  (forall lz, connection (_db_ctx w') = Some lz -> lz_connection lz = None) /\
  exists l, trace w' = trace w ++ EvCall CtxCleanup :: l /\ Forall is_close l /\
            (is_init (_db_ctx w) = true -> forallb ev_ok l = true -> o = Ret tt).
Proof.
  intros H. unfold Dbctx_cleanup in H. unfold_lazy. unfold_monad.
  destruct w as [e [cn t] tr n]. crunch.
  all: repeat split; try congruence; try (intros; by simplify_eq).
  all: trace_ext; split; [|done]; repeat constructor; by (do 2 eexists).
Qed.

(** [cleanup] of a context whose connection is open closes that connection,
    and forgets the lazy connection unless [close] raised. *)
Lemma Dbctx_cleanup_open w lz c :
  connection (_db_ctx w) = Some lz -> lz_connection lz = Some c ->
  let ok := negb (drv_fails drv (trace w ++ [EvCall CtxCleanup]) c OpClose) in
  Dbctx_cleanup drv w =
  (if ok then Ret tt else Raise DriverError,
   {| engine := engine w;
      _db_ctx := {| connection := if ok then None else Some (set_lz_connection None lz);
                    transactions := transactions (_db_ctx w) |};
      trace := trace w ++ [EvCall CtxCleanup; EvDrv c OpClose ok];
      next_id := next_id w |}).
Proof.
  intros Hc Hr. unfold Dbctx_cleanup. unfold_lazy. unfold_monad.
  destruct w as [e [cn t] tr n]. simpl in *. subst cn. rewrite Hr. simpl.
  destruct (drv_fails drv _ c OpClose); simpl;
    unfold set_ctx, set_connection, add_event; simpl; by rewrite <- app_assoc.
Qed.

(** [commit] and [rollback] of the lazy connection leave the context as it
    is and log at most the one driver call. *)
Lemma lazy_commit_spec w o w' :
  call_connection (LazyConnection_commit drv) w = (o, w') ->
  _db_ctx w' = _db_ctx w /\ engine w' = engine w /\
  exists l, trace w' = trace w ++ l /\ Forall is_drv l /\ (length l <= 1)%nat.
Proof.
  intros H. unfold_lazy. unfold_monad.
  destruct w as [e [cn t] tr n]. crunch.
  all: repeat split; try (destruct l; simpl in *; congruence).
  all: try (exists []; rewrite app_nil_r; by repeat constructor).
  all: trace_ext; split; [|lia]; repeat constructor; by (do 3 eexists).
Qed.

Lemma lazy_rollback_spec w o w' :
  call_connection (LazyConnection_rollback drv) w = (o, w') ->
  _db_ctx w' = _db_ctx w /\ engine w' = engine w /\
  exists l, trace w' = trace w ++ l /\ Forall is_plain_drv l.
Proof.
  intros H. unfold_lazy. unfold_monad.
  destruct w as [e [cn t] tr n]. crunch.
  all: repeat split; try (destruct l; simpl in *; congruence).
  all: try (exists []; rewrite app_nil_r; by repeat constructor).
  all: trace_ext; repeat constructor; by (do 3 eexists).
Qed.

End Footprints.

Lemma omap_cons_app {A B} (f : A -> option B) (x : A) (l : list A) :
  omap f (x :: l) = option_list (f x) ++ omap f l.
Proof. change (x :: l) with ([x] ++ l). rewrite omap_app. simpl. by destruct (f x). Qed.

Lemma decisions_cons e l : decisions (e :: l) = option_list (decision_of e) ++ decisions l.
Proof. apply omap_cons_app. Qed.

Lemma tx_exits_cons e l : tx_exits (e :: l) = option_list (tx_exit_of e) ++ tx_exits l.
Proof. apply omap_cons_app. Qed.

Lemma cleanups_cons e l : cleanups (e :: l) = option_list (cleanup_of e) ++ cleanups l.
Proof. apply omap_cons_app. Qed.

Lemma inits_cons e l : inits (e :: l) = option_list (init_of e) ++ inits l.
Proof. apply omap_cons_app. Qed.

Lemma drv_commits_cons e l :
  drv_commits (e :: l) = option_list (drv_commit_of e) ++ drv_commits l.
Proof. apply omap_cons_app. Qed.

(** Push the observers of the log through [++] and [::]. *)
Create Rewrite HintDb obs.
#[local] Hint Rewrite decisions_app tx_exits_app cleanups_app inits_app drv_commits_app
  decisions_cons tx_exits_cons cleanups_cons inits_cons drv_commits_cons : obs.

Ltac obs := autorewrite with obs; simpl.

Section TransactionFootprints.

Variable drv : driver.

Lemma Transactions_commit_spec w o w' :
  Transactions_commit drv w = (o, w') ->
  _db_ctx w' = _db_ctx w /\ engine w' = engine w /\
  exists l, trace w' = trace w ++ EvCall TxCommit :: l /\ Forall is_drv l.
Proof.
  unfold Transactions_commit. unfold_monad. simpl.
  destruct (call_connection (LazyConnection_commit drv) _) as [[[]|e] w1] eqn:H1;
    apply lazy_commit_spec in H1 as (Hc1 & He1 & l1 & Ht1 & Hl1 & _); simpl in *.
  - intros [= <- <-]. repeat split; [done..|].
    exists l1. split; [by rewrite Ht1, <- app_assoc|done].
  - intros H2. apply lazy_rollback_spec in H2 as (Hc2 & He2 & l2 & Ht2 & Hl2).
    repeat split; [congruence..|].
    exists (l1 ++ l2). split.
    + by rewrite Ht2, Ht1, <- !app_assoc.
    + apply Forall_app; split; [done|by apply is_plain_drv_is_drv].
Qed.

Lemma Transactions_rollback_spec w o w' :
  Transactions_rollback drv w = (o, w') ->
  _db_ctx w' = _db_ctx w /\ engine w' = engine w /\
  exists l, trace w' = trace w ++ EvCall TxRollback :: l /\ Forall is_drv l.
Proof.
  unfold Transactions_rollback. unfold_monad. simpl.
  intros H2. apply lazy_rollback_spec in H2 as (Hc2 & He2 & l2 & Ht2 & Hl2).
  simpl in *. repeat split; [done..|].
  exists l2. split; [by rewrite Ht2, <- app_assoc|by apply is_plain_drv_is_drv].
Qed.

(** The [try] block of [__exit__] decides exactly when the depth, already
    decremented, is 0, and then by [exc_type]. *)
Lemma Transactions_exit_try_spec exc_type w o w' :
  Transactions_exit_try drv exc_type w = (o, w') ->
  _db_ctx w' = _db_ctx w /\ engine w' = engine w /\
  (transactions (_db_ctx w) <> 0 -> o = Ret tt) /\
  exists l, trace w' = trace w ++ l /\
    tx_exits l = [] /\ cleanups l = [] /\ inits l = [] /\
    decisions l =
      if transactions (_db_ctx w) =? 0 then [decision_for exc_type] else [].
Proof.
  unfold Transactions_exit_try. unfold_monad.
  destruct (Z.eqb_spec (transactions (_db_ctx w)) 0) as [Hz|Hz].
  - destruct exc_type as [e|]; intros H;
      [apply Transactions_rollback_spec in H | apply Transactions_commit_spec in H];
      destruct H as (Hc & He & l & Ht & Hl);
      apply is_drv_quiet in Hl as (Hd & Hx & Hcl & Hi);
      (repeat split; [done..|]);
      eexists; (split; [exact Ht|]); simpl; by rewrite ?Hd, ?Hx, ?Hcl, ?Hi.
  - intros [= <- <-]. repeat split; [done..|].
    exists []. by rewrite app_nil_r.
Qed.

Lemma Transactions_exit_spec self exc_type w o w' :
  Transactions_exit drv self exc_type w = (o, w') ->
  transactions (_db_ctx w') = transactions (_db_ctx w) - 1 /\
  engine w' = engine w /\
  (should_close_conn self = false ->
     connection (_db_ctx w') = connection (_db_ctx w) /\
     (transactions (_db_ctx w) <> 1 -> o = Ret tt)) /\
  (should_close_conn self = true ->
     forall lz, connection (_db_ctx w') = Some lz -> lz_connection lz = None) /\
  exists l, trace w' = trace w ++ l /\
    tx_exits l = [bool_decide (exc_type ≠ None)] /\
    inits l = [] /\
    cleanups l = (if should_close_conn self then [tt] else []) /\
    decisions l =
      if transactions (_db_ctx w) =? 1 then [decision_for exc_type] else [].
Proof.
  unfold Transactions_exit, try_finally, bind at 1 2, mark, modify. simpl.
  destruct (Transactions_exit_try drv exc_type _) as [o1 w1] eqn:H1.
  apply Transactions_exit_try_spec in H1
    as (Hc1 & He1 & Ho1 & l1 & Ht1 & Hx1 & Hcl1 & Hi1 & Hd1); simpl in *.
  assert (Hd1' : decisions l1 =
    if transactions (_db_ctx w) =? 1 then [decision_for exc_type] else []).
  { rewrite Hd1. destruct (Z.eqb_spec (transactions (_db_ctx w) - 1) 0),
      (Z.eqb_spec (transactions (_db_ctx w)) 1); (done || lia). }
  destruct (should_close_conn self) eqn:Hs.
  - destruct (Dbctx_cleanup drv w1) as [oc w2] eqn:H2.
    apply Dbctx_cleanup_spec in H2 as (Htr2 & He2 & _ & Hlz2 & l2 & Ht2 & Hl2 & _).
    apply is_close_plain in Hl2.
    intros H. assert (w' = w2) as -> by (destruct oc as [[]|]; congruence).
    rewrite Htr2, Hc1. simpl. split_and!; [done|congruence|done|done|].
    exists (EvCall (TxExit (bool_decide (exc_type ≠ None))) :: l1 ++ EvCall CtxCleanup :: l2).
    apply is_plain_drv_is_drv, is_drv_quiet in Hl2 as (Hd2 & Hx2 & Hcl2 & Hi2).
    split; [by rewrite Ht2, Ht1, <- !app_assoc|].
    obs. by rewrite ?Hx1, ?Hx2, ?Hi1, ?Hi2, ?Hcl1, ?Hcl2, ?Hd1', ?Hd2, ?app_nil_r.
  - unfold ret. intros [= <- <-]. rewrite Hc1. simpl.
    split_and!; [done|done|split; [done|intros; apply Ho1; lia]|done|].
    exists (EvCall (TxExit (bool_decide (exc_type ≠ None))) :: l1).
    split; [by rewrite Ht1, <- !app_assoc|].
    obs. by rewrite ?Hx1, ?Hi1, ?Hcl1, ?Hd1'.
Qed.

End TransactionFootprints.
Ltac plain_drv :=
  repeat constructor; do 3 eexists; (split; [reflexivity | discriminate]).

Section UpdateFootprints.

Variable drv : driver.

Lemma _update_body_spec sql args w lz o w' :
  connection (_db_ctx w) = Some lz ->
  _update_body drv sql args w = (o, w') ->
  transactions (_db_ctx w') = transactions (_db_ctx w) /\
  engine w' = engine w /\
  is_init (_db_ctx w') = true /\
  exists l, trace w' = trace w ++ l /\ Forall is_drv l /\
    ((drv_commits l = [] /\ raised o = true /\ ~ executed l) \/
     (exists before c after,
        l = before ++ EvDrv c (OpExecute (replace_qmark sql) args) true :: after /\
        Forall is_plain_drv before /\
        (if transactions (_db_ctx w) =? 0
         then exists ok after', after = EvDrv c OpCommit ok :: after' /\
                                Forall is_plain_drv after'
         else Forall is_plain_drv after) /\
        (forallb ev_ok after = true ->
         o = Ret (drv_rowcount drv
                    (trace w ++ before ++
                     [EvDrv c (OpExecute (replace_qmark sql) args) true]))))).
Proof.
  intros Hc H. unfold _update_body in H. unfold_lazy. unfold_monad.
  destruct w as [e [cn t] tr n]. simpl in Hc. subst cn. destruct lz as [id raw].
  crunch. all: repeat (simpl in *; simplify_eq).
  all: split_and!; try done.
  all: trace_ext.
  all: split; [repeat constructor; by do 3 eexists|].
  all: try (left; split_and!; [done|done|];
            intros (c' & s' & a' & Hin);
            rewrite ?elem_of_cons, elem_of_nil in Hin; intuition congruence).
  all: right.
  all: match goal with
       | |- exists before c after,
              ?x :: ?y :: EvDrv ?c' (OpExecute _ _) true :: ?rest = _ /\ _ =>
           exists [x; y], c', rest
       | |- exists before c after,
              ?x :: EvDrv ?c' (OpExecute _ _) true :: ?rest = _ /\ _ =>
           exists [x], c', rest
       end.
  all: split_and!; [done|plain_drv| |simpl; intros; done].
  all: match goal with H : (_ =? 0) = _ |- _ => rewrite H end.
  all: try (do 2 eexists; split; [reflexivity|]); plain_drv.
Qed.
End UpdateFootprints.

Section UpdateScope.

Variable drv : driver.

Lemma is_init_Some c : is_init c = true -> exists lz, connection c = Some lz.
Proof. unfold is_init. destruct (connection c); [eauto|done]. Qed.

Lemma forallb_app_true {A} (f : A -> bool) l1 l2 :
  forallb f (l1 ++ l2) = true -> forallb f l1 = true /\ forallb f l2 = true.
Proof. rewrite forallb_app. by intros [? ?]%andb_prop. Qed.

(** [_update] in its connection scope: what it logs, when it commits and
    what it returns. *)
Lemma _update_spec sql args w o w' :
  (is_init (_db_ctx w) = false -> transactions (_db_ctx w) = 0) ->
  _update drv sql args w = (o, w') ->
  transactions (_db_ctx w') = transactions (_db_ctx w) /\
  engine w' = engine w /\
  (is_init (_db_ctx w) = true -> is_init (_db_ctx w') = true) /\
  exists l, trace w' = trace w ++ l /\ decisions l = [] /\ tx_exits l = [] /\
    ((drv_commits l = [] /\ raised o = true /\ ~ executed l) \/
     (exists before c after,
        l = before ++ EvDrv c (OpExecute (replace_qmark sql) args) true :: after /\
        drv_commits before = [] /\
        (if transactions (_db_ctx w) =? 0
         then exists ok after', after = EvDrv c OpCommit ok :: after' /\
                                drv_commits after' = []
         else drv_commits after = []) /\
        (forallb ev_ok after = true ->
         o = Ret (drv_rowcount drv
                    (trace w ++ before ++
                     [EvDrv c (OpExecute (replace_qmark sql) args) true]))))).
Proof.
  intros Hinv. unfold _update, with_connection, with_.
  destruct (is_init (_db_ctx w)) eqn:Hi.
  - rewrite ConnectionCtx_enter_nested by done.
    destruct (_update_body drv sql args w) as [ob w1] eqn:Hb. simpl.
    intros [= <- <-].
    destruct (is_init_Some _ Hi) as [lz Hlz].
    destruct (_update_body_spec _ _ _ _ _ _ _ Hlz Hb)
      as (Ht & He & Hi1 & l & Hl & Hdrv & Hcase).
    split_and!; [done..|].
    exists l. apply is_drv_quiet in Hdrv as (Hd & Hx & _ & _).
    split_and!; [done..|].
    destruct Hcase as [?|(before & c & after & -> & Hbefore & Hafter & Hret)]; [by left|].
    right. exists before, c, after.
    split_and!; [done|by apply is_plain_drv_no_commit| |done].
    destruct (transactions (_db_ctx w) =? 0).
    + destruct Hafter as (ok & after' & -> & Hafter).
      exists ok, after'. split; [done|by apply is_plain_drv_no_commit].
    + by apply is_plain_drv_no_commit.
  - rewrite ConnectionCtx_enter_outer by done. rewrite Dbctx_init_eq. cbn [snd].
    set (w0 := {| engine := engine w; _db_ctx := _; trace := _; next_id := _ |}).
    destruct (_update_body drv sql args w0) as [ob w1] eqn:Hb.
    destruct (_update_body_spec drv sql args w0 _ ob w1 eq_refl Hb)
      as (Ht & He & Hi1 & l & Hl & Hdrv & Hcase).
    unfold ConnectionCtx_exit. cbn [should_cleanup].
    destruct (Dbctx_cleanup drv w1) as [oc w2] eqn:Hc.
    apply Dbctx_cleanup_spec in Hc as (Htc & Hec & _ & _ & l2 & Hl2 & Hcl2 & Hok2).
    pose proof (is_close_plain _ Hcl2) as Hdrv2.
    intros H. assert (w' = w2) as -> by (destruct oc as [[]|]; congruence).
    rewrite Hinv by done. simpl in *.
    split_and!; [congruence|congruence|done|].
    exists (EvCall CtxInit :: l ++ EvCall CtxCleanup :: l2).
    pose proof (is_plain_drv_no_commit _ Hdrv2) as Hnc2.
    pose proof Hdrv2 as Hp2.
    apply is_plain_drv_is_drv, is_drv_quiet in Hp2 as (Hd2 & Hx2 & _ & _).
    pose proof Hdrv as Hdrv'. apply is_drv_quiet in Hdrv' as (Hd & Hx & _ & _).
    split_and!.
    + by rewrite Hl2, Hl, <- !app_assoc.
    + obs. by rewrite Hd, Hd2.
    + obs. by rewrite Hx, Hx2.
    + destruct Hcase as [(Hnc & Hr & Hne)|(before & c & after & -> & Hbefore & Hafter & Hret)].
      * left. split_and!.
        -- obs. by rewrite Hnc, Hnc2.
        -- destruct ob; [done|]. by destruct oc as [[]|]; simplify_eq.
        -- intros (c & s & a & Hin). apply Hne. exists c, s, a.
           rewrite elem_of_cons, elem_of_app, elem_of_cons in Hin.
           destruct Hin as [?|[?|[?|Hin]]]; [done|done|done|].
           rewrite Forall_forall in Hcl2. by apply Hcl2 in Hin as (? & ? & ?).
      * right. exists (EvCall CtxInit :: before), c, (after ++ EvCall CtxCleanup :: l2).
        split_and!.
        -- by rewrite <- !app_assoc.
        -- obs. by apply is_plain_drv_no_commit.
        -- destruct Hafter as (ok & after' & -> & Hafter).
           exists ok, (after' ++ EvCall CtxCleanup :: l2). split; [done|].
           obs. by rewrite (is_plain_drv_no_commit _ Hafter), Hnc2.
        -- intros [Hok Hok']%forallb_app_true. simpl in Hok'.
           rewrite Hok2 in H by (rewrite ?Hi1; done). simplify_eq.
           rewrite Hret by done. by rewrite <- !app_assoc.
Qed.

End UpdateScope.

Section CallerCode.

Variable drv : driver.

Lemma exc_of_raised {A} (o : outcome A) : bool_decide (exc_of o ≠ None) = raised o.
Proof. by destruct o. Qed.

Lemma decision_for_exc_of {A} (o : outcome A) :
  decision_for (exc_of o) = if raised o then Rollback else Commit.
Proof. by destruct o. Qed.

(** What running caller code does to the context and the log: the depth and
    an initialised context are kept; inside a transaction scope nothing is
    decided; and code without [try ... except] that completes has passed no
    exception to any transaction scope's exit. *)
Lemma run_spec p : forall w o w',
  (is_init (_db_ctx w) = false -> transactions (_db_ctx w) = 0) ->
  run drv p w = (o, w') ->
  transactions (_db_ctx w') = transactions (_db_ctx w) /\
  engine w' = engine w /\
  (is_init (_db_ctx w) = true -> is_init (_db_ctx w') = true) /\
  exists l, trace w' = trace w ++ l /\
    (0 < transactions (_db_ctx w) -> decisions l = []) /\
    (catch_free p = true -> raised o = false -> Forall (eq false) (tx_exits l)).
Proof.
  induction p as [| |p IHp q IHq|p IHp q IHq|sql args|table kwargs|p IHp|p IHp];
    intros w o w' Hinv; cbn [run catch_free].
  - intros [= <- <-]. split_and!; [done..|]. exists []. by rewrite app_nil_r.
  - intros [= <- <-]. split_and!; [done..|]. exists []. by rewrite app_nil_r.
  - unfold bind. destruct (run drv p w) as [[[]|e] w1] eqn:Hp;
      apply IHp in Hp as (Ht1 & He1 & Hi1 & l1 & Hl1 & Hd1 & Hx1); try done.
    + intros Hq. apply IHq in Hq as (Ht2 & He2 & Hi2 & l2 & Hl2 & Hd2 & Hx2).
      2:{ intros Hni. rewrite Ht1. apply Hinv.
          destruct (is_init (_db_ctx w)); [|done]. by rewrite Hi1 in Hni. }
      split_and!; [congruence|congruence|auto|].
      exists (l1 ++ l2). split_and!.
      * by rewrite Hl2, Hl1, <- app_assoc.
      * intros Hpos. obs. rewrite Hd1, Hd2; [done|lia|done].
      * intros [Hc1 Hc2]%andb_prop Hr. obs. apply Forall_app. auto.
    + intros [= <- <-]. split_and!; [done..|]. exists l1. split_and!; [done|done|].
      simpl. by intros.
  - unfold try_except. destruct (run drv p w) as [[[]|e] w1] eqn:Hp;
      apply IHp in Hp as (Ht1 & He1 & Hi1 & l1 & Hl1 & Hd1 & Hx1); try done.
    + intros [= <- <-]. split_and!; [done..|]. exists l1. by split_and!.
    + intros Hq. apply IHq in Hq as (Ht2 & He2 & Hi2 & l2 & Hl2 & Hd2 & Hx2).
      2:{ intros Hni. rewrite Ht1. apply Hinv.
          destruct (is_init (_db_ctx w)); [|done]. by rewrite Hi1 in Hni. }
      split_and!; [congruence|congruence|auto|].
      exists (l1 ++ l2). split_and!.
      * by rewrite Hl2, Hl1, <- app_assoc.
      * intros Hpos. obs. rewrite Hd1, Hd2; [done|lia|done].
      * done.
  - unfold bind, ret, update. destruct (_update drv sql args w) as [ou w1] eqn:Hu.
    apply _update_spec in Hu as (Ht & He & Hi & l & Hl & Hd & Hx & _); [|done].
    intros H. assert (w' = w1) as -> by (destruct ou; simpl in H; congruence).
    split_and!; [done..|]. exists l. split_and!; [done|done|].
    intros _ _. by rewrite Hx.
  - unfold bind, ret, raise, insert. destruct kwargs as [|kv kwargs].
    + intros [= <- <-]. split_and!; [done..|]. exists []. by rewrite app_nil_r.
    + destruct (_update drv _ _ w) as [ou w1] eqn:Hu.
      apply _update_spec in Hu as (Ht & He & Hi & l & Hl & Hd & Hx & _); [|done].
      intros H. assert (w' = w1) as -> by (destruct ou; simpl in H; congruence).
      split_and!; [done..|]. exists l. split_and!; [done|done|].
      intros _ _. by rewrite Hx.
  - unfold with_connection, with_. destruct (is_init (_db_ctx w)) eqn:Hi.
    + rewrite ConnectionCtx_enter_nested by done.
      destruct (run drv p w) as [ob w1] eqn:Hp. simpl. intros [= <- <-].
      apply IHp in Hp; [|by rewrite Hi]. by rewrite Hi in Hp.
    + rewrite ConnectionCtx_enter_outer by done. rewrite Dbctx_init_eq. cbn [snd].
      set (w0 := {| engine := engine w; _db_ctx := _; trace := _; next_id := _ |}).
      destruct (run drv p w0) as [ob w1] eqn:Hp.
      apply IHp in Hp as (Ht1 & He1 & Hi1 & l1 & Hl1 & Hd1 & Hx1); [|done].
      unfold ConnectionCtx_exit. cbn [should_cleanup].
      destruct (Dbctx_cleanup drv w1) as [oc w2] eqn:Hc.
      apply Dbctx_cleanup_spec in Hc as (Htc & Hec & _ & _ & l2 & Hl2 & Hcl2 & _).
      intros H. assert (w' = w2) as -> by (destruct oc as [[]|]; congruence).
      rewrite Hinv by done. simpl in *.
      split_and!; [congruence|congruence|done|].
      exists (EvCall CtxInit :: l1 ++ EvCall CtxCleanup :: l2).
      apply is_close_plain, is_plain_drv_is_drv, is_drv_quiet in Hcl2 as (Hd2 & Hx2 & _ & _).
      split_and!.
      * by rewrite Hl2, Hl1, <- !app_assoc.
      * lia.
      * intros Hcf Hr. obs. rewrite Hx2, app_nil_r. apply Hx1; [done|].
        destruct oc as [[]|]; by simplify_eq.
  - unfold with_transaction, with_. destruct (is_init (_db_ctx w)) eqn:Hi.
    + rewrite Transactions_enter_nested by done.
      set (w0 := set_ctx _ w).
      assert (is_init (_db_ctx w0) = true) as Hi0 by done.
      destruct (run drv p w0) as [ob w1] eqn:Hp.
      apply IHp in Hp as (Ht1 & He1 & Hi1 & l1 & Hl1 & Hd1 & Hx1); [|by rewrite Hi0].
      destruct (Transactions_exit drv _ (exc_of ob) w1) as [oe w2] eqn:Hx.
      apply Transactions_exit_spec in Hx
        as (Ht2 & He2 & Hown & _ & l2 & Hl2 & Hx2 & _ & _ & Hd2).
      destruct (Hown eq_refl) as [Hconn _].
      intros H. assert (w' = w2) as -> by (destruct oe as [[]|]; congruence).
      simpl in *. split_and!; [lia|congruence| |].
      * intros _. unfold is_init in *. rewrite Hconn. by apply Hi1.
      * exists (l1 ++ l2). split_and!.
        -- by rewrite Hl2, Hl1, <- !app_assoc.
        -- intros Hpos. obs. rewrite Hd1, Hd2 by lia.
           destruct (Z.eqb_spec (transactions (_db_ctx w1)) 1); [lia|done].
        -- intros Hcf Hr. obs. rewrite Hx2, exc_of_raised. apply Forall_app.
           assert (raised ob = false) as Hrb by (destruct oe as [[]|]; by simplify_eq).
           split; [by apply Hx1|]. rewrite Hrb. by repeat constructor.
    + rewrite Transactions_enter_outer by done.
      set (w0 := {| engine := engine w; _db_ctx := _; trace := _; next_id := _ |}).
      destruct (run drv p w0) as [ob w1] eqn:Hp.
      apply IHp in Hp as (Ht1 & He1 & Hi1 & l1 & Hl1 & Hd1 & Hx1); [|done].
      destruct (Transactions_exit drv _ (exc_of ob) w1) as [oe w2] eqn:Hx.
      apply Transactions_exit_spec in Hx
        as (Ht2 & He2 & _ & _ & l2 & Hl2 & Hx2 & _ & _ & Hd2).
      intros H. assert (w' = w2) as -> by (destruct oe as [[]|]; congruence).
      rewrite Hinv by done. simpl in *. split_and!; [lia|congruence|done|].
      exists (EvCall CtxInit :: l1 ++ l2). split_and!.
      * by rewrite Hl2, Hl1, <- !app_assoc.
      * lia.
      * intros Hcf Hr. obs. rewrite Hx2, exc_of_raised. apply Forall_app.
        assert (raised ob = false) as Hrb by (destruct oe as [[]|]; by simplify_eq).
        split; [by apply Hx1|]. rewrite Hrb. by repeat constructor.
Qed.

End CallerCode.

Section Machine.

Variable drv : driver.

Lemma tx_count_nonneg stk : 0 <= tx_count stk.
Proof. induction stk as [|[]]; simpl; lia. Qed.

Lemma initial_minv s : initial s -> minv s.
Proof.
  destruct s as [w stk]. intros [Hc Hs]. simpl in *. subst stk.
  unfold minv. simpl. by rewrite Hc.
Qed.

Lemma minv_uninit w stk :
  minv (w, stk) -> is_init (_db_ctx w) = false -> stk = [] /\ transactions (_db_ctx w) = 0.
Proof.
  intros (Ht & Hi & _) Hn. simpl in *.
  destruct stk; [done|]. by rewrite Hi in Hn.
Qed.

Lemma decisions_snoc t l : decisions l = [] -> decisions (t ++ l) = decisions t.
Proof. intros H. obs. by rewrite H, app_nil_r. Qed.

(** One step keeps the invariant, and it adds a decision to the log only
    when it is the exit of a transaction scope from depth 1 to depth 0. *)
Lemma step_spec a s s' :
  minv s -> step drv a s = Some s' ->
  minv s' /\
  (decisions (trace (fst s')) <> decisions (trace (fst s)) ->
   depth s = 1 /\ depth s' = 0 /\
   exists exc_type self rest, a = ExitScope exc_type /\ snd s = TxScope self :: rest).
Proof.
  destruct s as [w stk]. intros Hinv. pose proof Hinv as (Ht & Hi & Hown).
  unfold depth, minv. simpl in *. destruct a as [| |exc_type|sql args]; simpl.
  - destruct (is_init (_db_ctx w)) eqn:Hin.
    + rewrite ConnectionCtx_enter_nested by done. intros [= <-]. simpl.
      split; [|done]. split_and!; simpl; auto.
    + destruct (minv_uninit _ _ Hinv Hin) as [-> H0].
      rewrite ConnectionCtx_enter_outer, Dbctx_init_eq by done. intros [= <-]. simpl.
      split; [by split_and!|]. intros []. by apply decisions_snoc.
  - destruct (is_init (_db_ctx w)) eqn:Hin.
    + rewrite Transactions_enter_nested by done. intros [= <-]. simpl.
      split; [|done]. split_and!; simpl; auto. lia.
    + destruct (minv_uninit _ _ Hinv Hin) as [-> H0].
      rewrite Transactions_enter_outer by done. intros [= <-]. simpl.
      split; [by split_and!|]. intros []. by apply decisions_snoc.
  - destruct stk as [|[self|self] rest]; [done| |]; intros [= <-]; simpl in *.
    + unfold ConnectionCtx_exit. destruct Hown as [Hown Hrest].
      destruct (should_cleanup self) eqn:Hs.
      * assert (rest = []) as ->.
        { destruct rest; [done|]. by discriminate Hown. }
        destruct (Dbctx_cleanup drv w) as [oc w1] eqn:Hc.
        apply Dbctx_cleanup_spec in Hc as (Htc & _ & _ & _ & l & Hl & Hcl & _).
        simpl. split; [split_and!; simpl; [by rewrite Htc, Ht|done|done]|].
        intros []. rewrite Hl. apply decisions_snoc. obs.
        by apply is_close_plain, is_plain_drv_is_drv, is_drv_quiet in Hcl as (-> & _).
      * simpl. split; [|done]. split_and!; simpl; auto.
    + destruct Hown as [Hown Hrest].
      destruct (Transactions_exit drv self exc_type w) as [oe w1] eqn:Hx.
      apply Transactions_exit_spec in Hx
        as (Htx & _ & Hno & _ & l & Hl & _ & _ & _ & Hd).
      simpl. split.
      * split_and!; simpl; [lia| |done].
        intros Hne. destruct (Hno (Hown Hne)) as [Hconn _].
        unfold is_init in *. rewrite Hconn. by apply Hi.
      * intros Hdec. destruct (Z.eqb_spec (transactions (_db_ctx w)) 1) as [H1|H1].
        -- split_and!; [done|lia|by eauto].
        -- destruct Hdec. rewrite Hl. by apply decisions_snoc.
  - intros [= <-]. simpl. unfold update.
    destruct (_update drv sql args w) as [ou w1] eqn:Hu. simpl.
    apply _update_spec in Hu as (Htu & _ & Hiu & l & Hl & Hd & _).
    2:{ intros Hn. by destruct (minv_uninit _ _ Hinv Hn). }
    split; [split_and!; simpl; [congruence|auto|done]|].
    intros []. rewrite Hl. by apply decisions_snoc.
Qed.

Lemma steps_minv acts : forall s s', minv s -> steps drv acts s = Some s' -> minv s'.
Proof.
  induction acts as [|a acts IH]; intros s s' Hinv; simpl.
  - by intros [= <-].
  - destruct (step drv a s) as [s1|] eqn:Hs; [|done].
    apply IH. by apply (step_spec a s s1).
Qed.

Lemma reachable_minv s : reachable drv s -> minv s.
Proof.
  intros (s0 & acts & H0 & Hs). eapply steps_minv; [|exact Hs]. by apply initial_minv.
Qed.

End Machine.

(** * The claims *)

Lemma Forall_false_not_true (l : list bool) : Forall (eq false) l -> true ∉ l.
Proof. rewrite Forall_forall. intros H Hin. by apply H in Hin. Qed.

(** C1, as amended.  A chain of nested transaction scopes that starts at
    depth 0 makes exactly one decision.  The body, with all the scopes nested
    in it, runs at depth 1 or more and decides nothing; the decision is made
    by the exit of the outermost scope, which takes the depth from 1 to 0;
    and it is a commit exactly when the body of that outermost scope did not
    raise.  When no code in the chain catches exceptions, this is the same as
    no transaction scope in the chain having seen its body raise. *)
Theorem transaction_chain_decides_once (drv : driver) (p : prog) (w : world) :
  transactions (_db_ctx w) = 0 ->
  exists self w1 ob w2 oe w' l_body l_exit,
    Transactions_enter w = (Ret self, w1) /\
    run drv p w1 = (ob, w2) /\
    Transactions_exit drv self (exc_of ob) w2 = (oe, w') /\
    run drv (WithTransaction p) w =
      (match oe with Ret _ => ob | Raise e => Raise e end, w') /\
    transactions (_db_ctx w1) = 1 /\
    transactions (_db_ctx w2) = 1 /\
    transactions (_db_ctx w') = 0 /\
    decisions (trace w1) = decisions (trace w) /\
    trace w2 = trace w1 ++ l_body /\
    decisions l_body = [] /\
    trace w' = trace w2 ++ l_exit /\
    decisions l_exit = [if raised ob then Rollback else Commit] /\
    decisions (trace w') =
      decisions (trace w) ++ [if raised ob then Rollback else Commit] /\
    (catch_free p = true ->
     (raised ob = true <-> true ∈ tx_exits (l_body ++ l_exit))).
Proof.
  intros Hdepth.
  destruct (Transactions_enter w) as [oself w1] eqn:Henter.
  assert (exists self, oself = Ret self /\ transactions (_db_ctx w1) = 1 /\
            is_init (_db_ctx w1) = true /\
            decisions (trace w1) = decisions (trace w)) as (self & -> & Ht1 & Hi1 & Hd1).
  { destruct (is_init (_db_ctx w)) eqn:Hi.
    - rewrite Transactions_enter_nested in Henter by done.
      injection Henter as <- <-. eexists. split_and!; [done|simpl; lia|done|done].
    - rewrite Transactions_enter_outer in Henter by done.
      injection Henter as <- <-. eexists. split_and!; [done..|].
      simpl. by apply decisions_snoc. }
  destruct (run drv p w1) as [ob w2] eqn:Hbody.
  destruct (Transactions_exit drv self (exc_of ob) w2) as [oe w'] eqn:Hexit.
  exists self, w1, ob, w2, oe, w'.
  pose proof Hbody as Hb.
  apply run_spec in Hb as (Ht2 & _ & _ & l_body & Hl2 & Hd2 & Hx2); [|by rewrite Hi1].
  pose proof Hexit as Hx.
  apply Transactions_exit_spec in Hx as (Ht3 & _ & _ & _ & l_exit & Hl3 & Hx3 & _ & _ & Hd3).
  rewrite Ht2, Ht1 in Hd3. simpl in Hd3. rewrite decision_for_exc_of in Hd3.
  exists l_body, l_exit. split_and!; try done.
  - cbn [run]. unfold with_transaction, with_. rewrite Henter, Hbody, Hexit.
    by destruct oe.
  - congruence.
  - lia.
  - apply Hd2. lia.
  - rewrite Hl3, Hl2. obs. rewrite Hd2 by lia. by rewrite Hd3, Hd1, app_nil_r.
  - intros Hcf. obs. rewrite Hx3, exc_of_raised. split.
    + intros ->. apply elem_of_app. right. by constructor.
    + intros Hin. destruct (raised ob) eqn:Hr; [done|].
      apply elem_of_app in Hin as [Hin|Hin].
      * by apply Forall_false_not_true in Hin; [|apply Hx2].
      * by rewrite elem_of_cons, elem_of_nil in Hin; destruct Hin.
Qed.

(** A chain where the inner scope raises after its statement and the outer
    body catches the exception: the context starts at depth 0. *)
Lemma transaction_chain_decides_once_witness :
  exists self w1 ob w2 oe w' l_body l_exit,
    Transactions_enter main_world = (Ret self, w1) /\
    run ok_driver caught_inner_raise w1 = (ob, w2) /\
    Transactions_exit ok_driver self (exc_of ob) w2 = (oe, w') /\
    run ok_driver (WithTransaction caught_inner_raise) main_world =
      (match oe with Ret _ => ob | Raise e => Raise e end, w') /\
    transactions (_db_ctx w1) = 1 /\
    transactions (_db_ctx w2) = 1 /\
    transactions (_db_ctx w') = 0 /\
    decisions (trace w1) = decisions (trace main_world) /\
    trace w2 = trace w1 ++ l_body /\
    decisions l_body = [] /\
    trace w' = trace w2 ++ l_exit /\
    decisions l_exit = [if raised ob then Rollback else Commit] /\
    decisions (trace w') =
      decisions (trace main_world) ++ [if raised ob then Rollback else Commit] /\
    (catch_free caught_inner_raise = true ->
     (raised ob = true <-> true ∈ tx_exits (l_body ++ l_exit))).
Proof.
  apply (transaction_chain_decides_once ok_driver caught_inner_raise main_world).
  reflexivity.
Defined.

(** C1 as stated fails: the inner scope's body raises, the outer body catches
    the exception and completes, and the chain commits. *)
Lemma caught_inner_raise_commits :
  ~ commit_only_if_no_body_raised ok_driver caught_inner_raise main_world.
Proof.
  unfold commit_only_if_no_body_raised.
  assert (new_events main_world
            (snd (run ok_driver (WithTransaction caught_inner_raise) main_world)) =
          [EvCall CtxInit; EvDrv 1 OpConnect true; EvDrv 1 OpCursor true;
           EvDrv 1 (OpExecute "update users set username=%s where id=%s" sample_args) true;
           EvDrv 1 OpCursorClose true; EvCall (TxExit true); EvCall (TxExit false);
           EvCall TxCommit; EvDrv 1 OpCommit true; EvCall CtxCleanup;
           EvDrv 1 OpClose true]) as -> by (vm_compute; reflexivity).
  simpl. intros H. apply H; repeat constructor.
Qed.

(** C2.  A connection scope entered while the context already holds a
    connection makes no new one: its enter returns with [should_cleanup]
    false and leaves the world, and with it the one lazy connection, as it
    is; its exit does nothing, whatever exception is passed in; so the scope
    runs its body and nothing else.  [cleanup] is called by the exit of a
    scope exactly when that scope's enter called [init]. *)
Theorem nested_connection_scope_reuses_connection (drv : driver) (w : world) :
  is_init (_db_ctx w) = true ->
  ConnectionCtx_enter w = (Ret {| should_cleanup := false |}, w) /\
  (forall exc_type w2,
     ConnectionCtx_exit drv {| should_cleanup := false |} exc_type w2 = (Ret tt, w2)) /\
  (forall A (func : M world A), with_connection drv func w = func w) /\
  (forall w0 self w1, ConnectionCtx_enter w0 = (Ret self, w1) ->
     should_cleanup self = negb (is_init (_db_ctx w0)) /\
     inits (trace w1) = inits (trace w0) ++ (if should_cleanup self then [tt] else [])) /\
  (forall self exc_type w2 o w3,
     ConnectionCtx_exit drv self exc_type w2 = (o, w3) ->
     cleanups (trace w3) =
       cleanups (trace w2) ++ (if should_cleanup self then [tt] else [])).
Proof.
  intros Hi. split_and!.
  - by apply ConnectionCtx_enter_nested.
  - done.
  - intros A func. unfold with_connection, with_.
    rewrite ConnectionCtx_enter_nested by done.
    destruct (func w) as [o w1]. simpl. by destruct o.
  - intros w0 self w1. destruct (is_init (_db_ctx w0)) eqn:Hi0.
    + rewrite ConnectionCtx_enter_nested by done. intros [= <- <-].
      by rewrite app_nil_r.
    + rewrite ConnectionCtx_enter_outer, Dbctx_init_eq by done. intros [= <- <-].
      split; [done|]. simpl. by obs.
  - intros self exc_type w2 o w3. unfold ConnectionCtx_exit.
    destruct (should_cleanup self).
    + intros (_ & _ & _ & _ & l & -> & Hcl & _)%Dbctx_cleanup_spec. obs.
      apply is_close_plain, is_plain_drv_is_drv, is_drv_quiet in Hcl as (_ & _ & -> & _).
      done.
    + intros [= <- <-]. by rewrite app_nil_r.
Qed.

(** Inside the transaction scope of [in_transaction] the context holds a
    connection. *)
Lemma nested_connection_scope_reuses_connection_witness :
  let w := fst (in_transaction ok_driver) in
  ConnectionCtx_enter w = (Ret {| should_cleanup := false |}, w) /\
  (forall exc_type w2,
     ConnectionCtx_exit ok_driver {| should_cleanup := false |} exc_type w2 = (Ret tt, w2)) /\
  (forall A (func : M world A), with_connection ok_driver func w = func w) /\
  (forall w0 self w1, ConnectionCtx_enter w0 = (Ret self, w1) ->
     should_cleanup self = negb (is_init (_db_ctx w0)) /\
     inits (trace w1) = inits (trace w0) ++ (if should_cleanup self then [tt] else [])) /\
  (forall self exc_type w2 o w3,
     ConnectionCtx_exit ok_driver self exc_type w2 = (o, w3) ->
     cleanups (trace w3) =
       cleanups (trace w2) ++ (if should_cleanup self then [tt] else [])).
Proof.
  apply (nested_connection_scope_reuses_connection ok_driver
           (fst (in_transaction ok_driver))).
  reflexivity.
Defined.

(** C3.  In every state that well-nested enters and exits of connection and
    transaction scopes, with statements in between, reach from a fresh
    context: the depth is at least 0; a positive depth means that the context
    holds a connection; and a step that adds a transaction decision to the
    log is the exit of a transaction scope that takes the depth from 1 to
    0. *)
Theorem depth_invariant (drv : driver) (s : mstate) :
  reachable drv s ->
  0 <= depth s /\
  (0 < depth s -> is_init (_db_ctx (fst s)) = true) /\
  (forall a s', step drv a s = Some s' ->
     decisions (trace (fst s')) <> decisions (trace (fst s)) ->
     depth s = 1 /\ depth s' = 0 /\
     exists exc_type self rest, a = ExitScope exc_type /\ snd s = TxScope self :: rest).
Proof.
  intros Hinv%reachable_minv. pose proof Hinv as (Ht & Hi & _).
  unfold depth. split_and!.
  - rewrite Ht. apply tx_count_nonneg.
  - intros Hpos. apply Hi. intros Hnil. rewrite Ht, Hnil in Hpos. simpl in Hpos. lia.
  - intros a s' Hstep. by apply (step_spec drv a s s').
Qed.

Lemma depth_invariant_witness :
  let s := in_transaction ok_driver in
  0 <= depth s /\
  (0 < depth s -> is_init (_db_ctx (fst s)) = true) /\
  (forall a s', step ok_driver a s = Some s' ->
     decisions (trace (fst s')) <> decisions (trace (fst s)) ->
     depth s = 1 /\ depth s' = 0 /\
     exists exc_type self rest, a = ExitScope exc_type /\ snd s = TxScope self :: rest).
Proof.
  apply (depth_invariant ok_driver (in_transaction ok_driver)).
  exists (main_world, []), [EnterTransaction; Statement sample_sql sample_args].
  split; [split; reflexivity | reflexivity].
Defined.

(** C4 fails on the code.  [commit] and [rollback] of a lazy connection that
    was never opened look the method up on [None] and raise an
    [AttributeError]; so a transaction scope whose body issues no statement
    raises on exit. *)
Theorem lazy_commit_unopened_raises (drv : driver) (id : nat) (w : world) :
  let unopened := {| lz_id := id; lz_connection := None |} in
  LazyConnection_commit drv (unopened, w) = (Raise AttributeError, (unopened, w)) /\
  LazyConnection_rollback drv (unopened, w) = (Raise AttributeError, (unopened, w)) /\
  fst (run drv (WithTransaction Pass) main_world) = Raise AttributeError.
Proof. by split_and!. Qed.

(** Whatever makes the connection's [commit] raise, a driver error or an
    [AttributeError], [_Transactions.commit] goes on with the connection's
    [rollback], and its result is the result of that [rollback]. *)
Lemma Transactions_commit_fallback (drv : driver) (w : world) (e : exn) (w1 : world) :
  call_connection (LazyConnection_commit drv) (add_event (EvCall TxCommit) w) =
    (Raise e, w1) ->
  Transactions_commit drv w = call_connection (LazyConnection_rollback drv) w1.
Proof.
  intros H. unfold Transactions_commit, try_except, bind, mark, modify. by rewrite H.
Qed.



(** C6.  The exit of a transaction scope that created the connection runs
    [_Dbctx.cleanup] after the [try] block whatever that block did, also when
    the commit or rollback in it raised: the world after the exit is the
    world after [cleanup], one more [cleanup] call is in the log, and the
    context holds no open connection. *)
Theorem owner_exit_always_cleans_up (drv : driver) (exc_type : option exn) (w : world) :
  let w0 :=
    set_ctx (set_transactions (transactions (_db_ctx w) - 1) (_db_ctx w))
      (add_event (EvCall (TxExit (bool_decide (exc_type ≠ None)))) w) in
  exists o1 w1 oc w',
    Transactions_exit_try drv exc_type w0 = (o1, w1) /\
    Dbctx_cleanup drv w1 = (oc, w') /\
    Transactions_exit drv {| should_close_conn := true |} exc_type w =
      (match oc with Ret _ => o1 | Raise e => Raise e end, w') /\
    cleanups (trace w') = cleanups (trace w) ++ [tt] /\
    (forall lz, connection (_db_ctx w') = Some lz -> lz_connection lz = None).
Proof.
  intros w0.
  destruct (Transactions_exit_try drv exc_type w0) as [o1 w1] eqn:Htry.
  destruct (Dbctx_cleanup drv w1) as [oc w'] eqn:Hclean.
  exists o1, w1, oc, w'. split_and!; [done|done| | |].
  - unfold Transactions_exit, try_finally, bind at 1 2, mark, modify. simpl.
    fold w0. rewrite Htry, Hclean. by destruct oc.
  - apply Transactions_exit_try_spec in Htry as (_ & _ & _ & l1 & Hl1 & _ & Hc1 & _).
    apply Dbctx_cleanup_spec in Hclean as (_ & _ & _ & _ & l2 & Hl2 & Hcl2 & _).
    apply is_close_plain, is_plain_drv_is_drv, is_drv_quiet in Hcl2 as (_ & _ & Hc2 & _).
    rewrite Hl2, Hl1. subst w0. simpl. obs. by rewrite Hc1, Hc2, !app_nil_r.
  - by apply Dbctx_cleanup_spec in Hclean as (_ & _ & _ & Hlz & _).
Qed.

(** The exit that owns the connection, with a driver whose commit and
    rollback both fail: the decision raises and the connection is closed all
    the same. *)
Example owner_exit_cleans_up_after_failed_rollback :
  let w := fst (in_transaction tx_failing_driver) in
  let r := Transactions_exit tx_failing_driver {| should_close_conn := true |} None w in
  fst r = Raise DriverError /\
  new_events w (snd r) =
    [EvCall (TxExit false); EvCall TxCommit; EvDrv 1 OpCommit false;
     EvDrv 1 OpRollback false; EvCall CtxCleanup; EvDrv 1 OpClose true] /\
  connection (_db_ctx (snd r)) = None.
Proof. by vm_compute. Qed.

Section UpdateReturns.

Variable drv : driver.


End UpdateReturns.



(** Outside a transaction scope [update] commits right after the statement;
    inside one it does not, and the scope's exit commits. *)
Example update_outside_and_inside_transaction :
  new_events main_world (snd (update ok_driver sample_sql sample_args main_world)) =
    [EvCall CtxInit; EvDrv 1 OpConnect true; EvDrv 1 OpCursor true;
     EvDrv 1 (OpExecute "update users set username=%s where id=%s" sample_args) true;
     EvDrv 1 OpCommit true; EvDrv 1 OpCursorClose true; EvCall CtxCleanup;
     EvDrv 1 OpClose true] /\
  new_events main_world
    (snd (run ok_driver (WithTransaction (Update sample_sql sample_args)) main_world)) =
    [EvCall CtxInit; EvDrv 1 OpConnect true; EvDrv 1 OpCursor true;
     EvDrv 1 (OpExecute "update users set username=%s where id=%s" sample_args) true;
     EvDrv 1 OpCursorClose true; EvCall (TxExit false); EvCall TxCommit;
     EvDrv 1 OpCommit true; EvCall CtxCleanup; EvDrv 1 OpClose true] /\
  fst (update ok_driver sample_sql sample_args main_world) = Ret 1.
Proof. by vm_compute. Qed.

(** C8.  In a process where no engine exists yet [create_engine] makes one;
    every further call, with whatever arguments, raises [DBError] and leaves
    the world, and so the engine of the first call, as it is. *)
Theorem create_engine_twice_fails
    (username password database host port : pyval) (kwargs : gmap string pyval)
    (username' password' database' host' port' : pyval) (kwargs' : gmap string pyval)
    (w : world) :
  engine w = None ->
  exists e w1,
    create_engine username password database host port kwargs w = (Ret tt, w1) /\
    engine w1 = Some e /\
    _db_ctx w1 = _db_ctx w /\
    create_engine username' password' database' host' port' kwargs' w1 =
      (Raise (DBError "Engine is already initialized"), w1).
Proof.
  intros He. unfold create_engine. unfold_monad. rewrite He. simpl.
  eexists _, _. split_and!; reflexivity.
Qed.

Lemma create_engine_twice_fails_witness :
  exists e w1,
    create_engine (VStr "root") (VStr "2014081029") (VStr "test") (VStr "localhost")
      (VInt 3306) ∅ fresh_world = (Ret tt, w1) /\
    engine w1 = Some e /\
    _db_ctx w1 = _db_ctx fresh_world /\
    create_engine (VStr "admin") (VStr "secret") (VStr "prod") (VStr "db.example.org")
      (VInt 3307) {[ "charset" := VStr "latin1" ]} w1 =
      (Raise (DBError "Engine is already initialized"), w1).
Proof.
  apply (create_engine_twice_fails
           (VStr "root") (VStr "2014081029") (VStr "test") (VStr "localhost")
           (VInt 3306) ∅
           (VStr "admin") (VStr "secret") (VStr "prod") (VStr "db.example.org")
           (VInt 3307) {[ "charset" := VStr "latin1" ]} fresh_world).
  reflexivity.
Defined.

(** The parameters that the first call in [__main__] captures. *)
Example main_world_engine :
  fmap _connect (engine main_world) =
  Some (list_to_map
          [("user", VStr "root"); ("passwd", VStr "2014081029"); ("db", VStr "test");
           ("host", VStr "localhost"); ("port", VInt 3306);
           ("charset", VStr "utf8mb4"); ("use_unicode", VStr "True")]).
Proof. by vm_compute. Qed.

(** C9, as amended.  A record is not read-only.  Reading an attribute leaves
    the mapping as it is; assigning an attribute stores the value under that
    name, for a new name as for a column, and leaves every other name as it
    was. *)
Theorem record_attribute_assignment_updates (special : string -> bool)
    (r : gmap string pyval) (name : string) (value : pyval) :
  snd (getattr special name r) = r /\
  fst (setattr name value r) = Ret tt /\
  snd (setattr name value r) !! name = Some value /\
  (forall other, other <> name -> snd (setattr name value r) !! other = r !! other).
Proof.
  split_and!.
  - unfold getattr, Field___getattr__, dict___getitem__, ret.
    destruct (class_attr special name); [done|]. by destruct (r !! name).
  - done.
  - apply lookup_insert_eq.
  - intros other Hne. by apply lookup_insert_ne.
Qed.

(** C9 as stated fails: assigning [r.id = 3] changes the row. *)
Lemma record_is_not_read_only : ~ record_read_only py3_special sample_record.
Proof.
  intros [_ H]. specialize (H "id" (VInt 3)).
  apply (f_equal (fun m : gmap string pyval => m !! "id")) in H.
  vm_compute in H. discriminate H.
Qed.

(** C10, as amended.  For a name that the class does not define, [r.name] is
    the stored value when the name is a column, and an [AssertionError], not
    a default, when it is not.  The record is unchanged either way. *)
Theorem getattr_unknown_column_raises (special : string -> bool)
    (r : gmap string pyval) (name : string) :
  class_attr special name = false ->
  (forall v, r !! name = Some v -> getattr special name r = (Ret v, r)) /\
  (r !! name = None ->
   getattr special name r =
   (Raise (AssertionError ("'Field' object has not attribute '" +:+ name +:+ "'")), r)).
Proof.
  intros Hc. unfold getattr, Field___getattr__, dict___getitem__. rewrite Hc.
  split; [intros v|]; by intros ->.
Qed.

Lemma getattr_unknown_column_raises_witness :
  (forall v, sample_record !! "email" = Some v ->
             getattr py3_special "email" sample_record = (Ret v, sample_record)) /\
  (sample_record !! "email" = None ->
   getattr py3_special "email" sample_record =
   (Raise (AssertionError ("'Field' object has not attribute '" +:+ "email" +:+ "'")),
    sample_record)).
Proof.
  apply (getattr_unknown_column_raises py3_special sample_record "email").
  reflexivity.
Defined.

(** C10 as stated fails: for the column [keys] the class answers first, with
    the method of [dict], and the stored value is not returned. *)
Lemma getattr_column_shadowed_by_dict_method :
  ~ getattr_as_claimed py3_special keys_record "keys".
Proof.
  unfold getattr_as_claimed.
  assert (keys_record !! "keys" = Some (VStr "k1,k2")) as -> by (by vm_compute).
  assert (fst (getattr py3_special "keys" keys_record) = Ret (VClassAttr "keys")) as ->
    by (by vm_compute).
  discriminate.
Qed.

(** A name that is no column, but a method of [dict], raises nothing. *)
Example getattr_non_column_dict_method :
  sample_record !! "items" = None /\
  fst (getattr py3_special "items" sample_record) = Ret (VClassAttr "items").
Proof. by vm_compute. Qed.

(** The columns themselves read as the spec says. *)
Example getattr_sample_record :
  fst (getattr py3_special "username" sample_record) = Ret (VStr "kuang") /\
  fst (getattr py3_special "id" sample_record) = Ret (VInt 2).
Proof. by vm_compute. Qed.

(** * More of the code *)

(** ** [Field] *)

Lemma Field___init___cons k v keys values kwargs :
  Field___init__ (k :: keys) (v :: values) kwargs =
  Field___init__ keys values (<[k := v]> kwargs).
Proof. reflexivity. Qed.

(** A name that is not among the keys that got a value keeps what [kwargs]
    gave it. *)
Lemma Field___init___other keys : forall values kwargs k,
  k ∉ take (length values) keys ->
  Field___init__ keys values kwargs !! k = kwargs !! k.
Proof.
  induction keys as [|k0 keys IH]; intros [|v0 values] kwargs k Hk; try done.
  rewrite Field___init___cons, IH.
  - apply lookup_insert_ne. intros ->. apply Hk. simpl. by left.
  - intros Hin. apply Hk. simpl. by right.
Qed.

(** The value of a key is the one at its last position that has a value. *)
Lemma Field___init___last keys : forall values kwargs i k v,
  keys !! i = Some k -> values !! i = Some v ->
  k ∉ drop (S i) (take (length values) keys) ->
  Field___init__ keys values kwargs !! k = Some v.
Proof.
  induction keys as [|k0 keys IH]; intros [|v0 values] kwargs i k v Hk Hv Hlast;
    try done.
  rewrite Field___init___cons. destruct i as [|i]; simpl in *.
  - simplify_eq. rewrite Field___init___other by (by rewrite drop_0 in Hlast).
    apply lookup_insert_eq.
  - by apply (IH values _ i).
Qed.

(** X1.  A record built from distinct column names and a row holds, under
    every name that has a value in the row, that value; every other name
    reads as in [kwargs], so a name beyond the end of a short row is not a
    column of the record. *)
Theorem Field_of_row_holds_each_column (keys : list string) (values : list pyval)
    (kwargs : gmap string pyval) :
  NoDup keys ->
  (forall i k v, keys !! i = Some k -> values !! i = Some v ->
                 Field___init__ keys values kwargs !! k = Some v) /\
  (forall k, k ∉ take (length values) keys ->
             Field___init__ keys values kwargs !! k = kwargs !! k).
Proof.
  intros Hnd. split; [|apply Field___init___other].
  intros i k v Hk Hv. apply (Field___init___last keys values kwargs i); [done..|].
  intros Hin%list_elem_of_lookup. destruct Hin as [j Hj].
  rewrite lookup_drop in Hj. apply lookup_take_Some in Hj as [Hj _].
  pose proof (NoDup_lookup keys i (S i + j) k Hnd Hk Hj). lia.
Qed.

Lemma Field_of_row_holds_each_column_witness :
  (forall i k v, ["id"; "username"] !! i = Some k -> [VInt 2; VStr "kuang"] !! i = Some v ->
                 Field___init__ ["id"; "username"] [VInt 2; VStr "kuang"] ∅ !! k = Some v) /\
  (forall k, k ∉ take (length [VInt 2; VStr "kuang"]) ["id"; "username"] ->
             Field___init__ ["id"; "username"] [VInt 2; VStr "kuang"] ∅ !! k =
             (∅ : gmap string pyval) !! k).
Proof.
  apply (Field_of_row_holds_each_column ["id"; "username"] [VInt 2; VStr "kuang"] ∅).
  repeat constructor; rewrite ?elem_of_cons, ?elem_of_nil; intuition congruence.
Defined.

(** X2.  When a column name occurs more than once, the record holds the value
    of its last occurrence that has a value in the row: the earlier ones are
    overwritten. *)
Theorem Field_duplicate_column_last_wins (keys : list string) (values : list pyval)
    (kwargs : gmap string pyval) (i j : nat) (k : string) (v v' : pyval) :
  (i < j)%nat ->
  keys !! i = Some k -> values !! i = Some v ->
  keys !! j = Some k -> values !! j = Some v' ->
  k ∉ drop (S j) (take (length values) keys) ->
  Field___init__ keys values kwargs !! k = Some v'.
Proof. intros _ _ _ Hk Hv Hlast. by apply (Field___init___last keys values kwargs j). Qed.

Lemma Field_duplicate_column_last_wins_witness :
  Field___init__ ["id"; "name"; "id"] [VInt 1; VStr "a"; VInt 7] ∅ !! "id" = Some (VInt 7).
Proof.
  apply (Field_duplicate_column_last_wins ["id"; "name"; "id"] [VInt 1; VStr "a"; VInt 7]
           ∅ 0 2 "id" (VInt 1) (VInt 7)); try reflexivity; [lia|].
  simpl. apply not_elem_of_nil.
Defined.

(** X3.  Reading an attribute after assigning it gives the assigned value
    back exactly for the names that the class does not define; for a name
    such as [keys] the value is stored but the read still gives the class's
    attribute.  Other names read as before. *)
Theorem getattr_after_setattr (special : string -> bool) (r : gmap string pyval)
    (name : string) (value : pyval) :
  fst (getattr special name (snd (setattr name value r))) =
    (if class_attr special name then Ret (VClassAttr name) else Ret value) /\
  snd (setattr name value r) !! name = Some value /\
  (forall other, other <> name ->
     fst (getattr special other (snd (setattr name value r))) =
     fst (getattr special other r)).
Proof.
  split_and!.
  - unfold getattr, Field___getattr__, dict___getitem__, ret.
    destruct (class_attr special name); [done|].
    change (snd (setattr name value r)) with (<[name := value]> r).
    by rewrite lookup_insert_eq.
  - apply lookup_insert_eq.
  - intros other Hne. unfold getattr, Field___getattr__, dict___getitem__, ret.
    destruct (class_attr special other); [done|].
    change (snd (setattr name value r)) with (<[name := value]> r).
    rewrite lookup_insert_ne by congruence. by destruct (r !! other).
Qed.

(** ** [create_engine] and [_LazyConnection] *)

(** The defaulting loop and the final [update], for any two distinct default
    keys: [kwargs] wins, then the defaults, then the positional arguments. *)
Lemma params_defaulting (base kwargs : gmap string pyval) (c u : string) (vc vu : pyval) :
  c <> u ->
  delete u (delete c kwargs) ∪
    <[u := default vu (delete c kwargs !! u)]> (<[c := default vc (kwargs !! c)]> base) =
  kwargs ∪ (<[c := vc]> (<[u := vu]> ∅) ∪ base).
Proof.
  intros Hcu. apply map_eq. intros k.
  repeat first [rewrite lookup_union | rewrite lookup_insert | rewrite lookup_delete
               | rewrite lookup_empty].
  repeat case_decide; simplify_eq; simpl;
    by destruct (kwargs !! k), (base !! k).
Qed.

(** X4.  The parameters that the engine captures: what the caller passed in
    [kwargs] wins; [charset] and [use_unicode] default to [utf8mb4] and
    [True] when [kwargs] has none; the five positional arguments are stored
    as [user], [passwd], [db], [host] and [port]. *)
Theorem create_engine_params (username password database host port : pyval)
    (kwargs : gmap string pyval) (w : world) :
  engine w = None ->
  exists e,
    engine (snd (create_engine username password database host port kwargs w)) = Some e /\
    _connect e =
      kwargs ∪ (list_to_map default_params ∪
                list_to_map [("port", port); ("host", host); ("db", database);
                             ("passwd", password); ("user", username)]).
Proof.
  intros He. unfold create_engine. unfold_monad. rewrite He. simpl.
  eexists. split; [reflexivity|].
  cbn [_connect foldl default_params list_to_map foldr fst snd].
  by apply params_defaulting.
Qed.

Lemma create_engine_params_witness :
  exists e,
    engine (snd (create_engine (VStr "root") (VStr "pw") (VStr "test") (VStr "localhost")
                   (VInt 3306) {[ "charset" := VStr "latin1" ]} fresh_world)) = Some e /\
    _connect e =
      {[ "charset" := VStr "latin1" ]} ∪
      (list_to_map default_params ∪
       list_to_map [("port", VInt 3306); ("host", VStr "localhost"); ("db", VStr "test");
                    ("passwd", VStr "pw"); ("user", VStr "root")]).
Proof.
  apply (create_engine_params (VStr "root") (VStr "pw") (VStr "test") (VStr "localhost")
           (VInt 3306) {[ "charset" := VStr "latin1" ]} fresh_world).
  reflexivity.
Defined.

(** X5.  [cleanup] of a lazy connection leaves it unopened whether [close]
    raised or not, and a second [cleanup] does nothing: no driver call, no
    exception. *)
Theorem LazyConnection_cleanup_idempotent (drv : driver) (self : LazyConnection)
    (w : world) :
  let r := LazyConnection_cleanup drv (self, w) in
  lz_connection (fst (snd r)) = None /\
  LazyConnection_cleanup drv (snd r) = (Ret tt, snd r) /\
  closes (new_events w (snd (snd r))) = option_list (lz_connection self).
Proof.
  unfold new_events. unfold_lazy. unfold_monad. destruct self as [id [c|]]; simpl.
  - destruct (drv_fails drv (trace w) c OpClose); simpl;
      by rewrite drop_app_length.
  - by rewrite drop_all.
Qed.

(** ** How statements and scopes use the connection *)

Lemma new_events_app w w' l : trace w' = trace w ++ l -> new_events w w' = l.
Proof. intros H. unfold new_events. rewrite H. apply drop_app_length. Qed.

Lemma opens_app l1 l2 : opens (l1 ++ l2) = opens l1 ++ opens l2.
Proof. apply omap_app. Qed.

Lemma closes_app l1 l2 : closes (l1 ++ l2) = closes l1 ++ closes l2.
Proof. apply omap_app. Qed.

Lemma cursor_opens_app l1 l2 : cursor_opens (l1 ++ l2) = cursor_opens l1 ++ cursor_opens l2.
Proof. apply omap_app. Qed.

Lemma cursor_closes_app l1 l2 :
  cursor_closes (l1 ++ l2) = cursor_closes l1 ++ cursor_closes l2.
Proof. apply omap_app. Qed.

Lemma tx_calls_app l1 l2 : tx_calls (l1 ++ l2) = tx_calls l1 ++ tx_calls l2.
Proof. apply omap_app. Qed.

Lemma conn_ids_app l1 l2 : conn_ids (l1 ++ l2) = conn_ids l1 ++ conn_ids l2.
Proof. apply omap_app. Qed.

Lemma drv_calls_app l1 l2 : drv_calls (l1 ++ l2) = drv_calls l1 ++ drv_calls l2.
Proof. apply omap_app. Qed.

Lemma opens_cons e l : opens (e :: l) = option_list (open_of e) ++ opens l.
Proof. apply omap_cons_app. Qed.

Lemma closes_cons e l : closes (e :: l) = option_list (close_of e) ++ closes l.
Proof. apply omap_cons_app. Qed.

Lemma cursor_opens_cons e l :
  cursor_opens (e :: l) = option_list (cursor_open_of e) ++ cursor_opens l.
Proof. apply omap_cons_app. Qed.

Lemma cursor_closes_cons e l :
  cursor_closes (e :: l) = option_list (cursor_close_of e) ++ cursor_closes l.
Proof. apply omap_cons_app. Qed.

Lemma tx_calls_cons e l : tx_calls (e :: l) = option_list (tx_call_of e) ++ tx_calls l.
Proof. apply omap_cons_app. Qed.

Lemma conn_ids_cons e l : conn_ids (e :: l) = option_list (conn_id_of e) ++ conn_ids l.
Proof. apply omap_cons_app. Qed.

Lemma drv_calls_cons e l : drv_calls (e :: l) = option_list (drv_call_of e) ++ drv_calls l.
Proof. apply omap_cons_app. Qed.

#[local] Hint Rewrite opens_app closes_app cursor_opens_app cursor_closes_app tx_calls_app
  conn_ids_app drv_calls_app opens_cons closes_cons cursor_opens_cons cursor_closes_cons
  tx_calls_cons conn_ids_cons drv_calls_cons : obs.

(** Nothing logged is coherent. *)
Lemma conn_coherent_nil w : conn_coherent w [] w.
Proof.
  unfold conn_coherent. split_and!; try done. by destruct (raw w).
Qed.

(** Coherent uses follow one another. *)
Lemma conn_coherent_app w l1 w1 l2 w2 :
  conn_coherent w l1 w1 -> conn_coherent w1 l2 w2 -> conn_coherent w (l1 ++ l2) w2.
Proof.
  intros (Hc1 & Hm1 & Ho1 & Hi1 & Hb1) (Hc2 & Hm2 & Ho2 & Hi2 & Hb2).
  unfold conn_coherent. obs. split_and!.
  - by rewrite Hc1, Hc2.
  - auto.
  - rewrite Ho1, Ho2. destruct (raw w) as [c|] eqn:Hw.
    + by rewrite (Hm1 c eq_refl).
    + destruct (raw w1) as [c1|] eqn:Hw1; [|done].
      by rewrite (Hm2 c1 eq_refl).
  - apply Forall_app. split; [|done].
    eapply Forall_impl; [exact Hi1|]. simpl. intros c' Hc'. by apply Hm2.
  - by rewrite Hb1, Hb2.
Qed.

Section StatementUse.

Variable drv : driver.

Ltac coherent_cases :=
  unfold conn_coherent, raw; simpl;
  split_and!; try done; try (intros; simplify_eq; done);
  repeat constructor; try done.

(** [_update] inside an initialised context. *)
Lemma _update_body_coherent sql args w lz o w' :
  connection (_db_ctx w) = Some lz ->
  _update_body drv sql args w = (o, w') ->
  is_init (_db_ctx w') = true /\
  exists l, trace w' = trace w ++ l /\
    conn_coherent w l w' /\
    Forall (fun x => x.1.2 = OpCommit) (tx_calls l) /\
    (transactions (_db_ctx w) <> 0 -> tx_calls l = []) /\
    (engine w = None -> raw w = None -> o = Raise AttributeError /\ l = []).
Proof.
  intros Hc H. unfold _update_body in H. unfold_lazy. unfold_monad.
  destruct w as [e [cn t] tr n]. simpl in Hc. subst cn. destruct lz as [id r].
  crunch. all: repeat (simpl in *; simplify_eq).
  all: split; [done|].
  all: trace_ext.
  all: split_and!; [coherent_cases|repeat constructor|try done|try done].
  all: try (intros Hne; exfalso; apply Hne; by apply Z.eqb_eq).
Qed.

End StatementUse.

Lemma drv_calls_nil_quiet l :
  drv_calls l = [] ->
  tx_calls l = [] /\ opens l = [] /\ closes l = [] /\ conn_ids l = [] /\
  cursor_opens l = [] /\ cursor_closes l = [] /\ drv_commits l = [].
Proof.
  induction l as [|[c op ok|m] l IH]; [done|done|].
  intros H. destruct (IH H) as (? & ? & ? & ? & ? & ? & ?). by split_and!.
Qed.

Section ScopeUse.

Variable drv : driver.

Ltac coherent_cases :=
  unfold conn_coherent, raw; simpl;
  split_and!; try done; try (intros; simplify_eq; done);
  try match goal with |- context [match ?r with _ => _ end] => by destruct r end;
  repeat constructor; try done.

Ltac unfold_tx :=
  unfold Transactions_exit, Transactions_exit_try, Transactions_commit,
    Transactions_rollback, Dbctx_cleanup in *.

(** The [try] block of a transaction scope's exit leaves the context as it
    is, calls the driver only on the open connection, and not at all when
    none is open or the depth is not 0. *)
Lemma Transactions_exit_try_coherent exc_type w o w' :
  Transactions_exit_try drv exc_type w = (o, w') ->
  _db_ctx w' = _db_ctx w /\
  exists l, trace w' = trace w ++ l /\
    opens l = [] /\ closes l = [] /\ cursor_opens l = [] /\ cursor_closes l = [] /\
    Forall (fun c' => raw w = Some c') (conn_ids l) /\
    (raw w = None -> drv_calls l = []) /\
    (transactions (_db_ctx w) <> 0 -> drv_calls l = []).
Proof.
  intros H. unfold_tx. unfold_lazy. unfold_monad.
  destruct w as [e [[[id r]|] t] tr n]. all: crunch.
  all: repeat (simpl in *; simplify_eq).
  all: split; [done|].
  all: trace_ext.
  all: unfold raw; simpl; split_and!; try done; repeat constructor.
  all: try (intros Hne; exfalso; apply Hne; by apply Z.eqb_eq).
Qed.

(** [cleanup] closes the connection that is open, calls the driver for
    nothing else, and leaves no connection open in the context. *)
Lemma Dbctx_cleanup_closes w o w' :
  Dbctx_cleanup drv w = (o, w') ->
  raw w' = None /\
  transactions (_db_ctx w') = transactions (_db_ctx w) /\
  exists l, trace w' = trace w ++ l /\
    closes l = option_list (raw w) /\ conn_ids l = option_list (raw w) /\
    opens l = [] /\ cursor_opens l = [] /\ cursor_closes l = [] /\ tx_calls l = [] /\
    cleanups l = [tt] /\ inits l = [] /\
    (raw w = None -> drv_calls l = []) /\
    (is_init (_db_ctx w) = true -> forallb ev_ok l = true ->
     o = Ret tt /\ is_init (_db_ctx w') = false) /\
    decisions l = [].
Proof.
  intros H. unfold_tx. unfold_lazy. unfold_monad.
  destruct w as [e [[[id r]|] t] tr n]. all: crunch.
  all: repeat (simpl in *; simplify_eq).
  all: unfold raw; simpl; split_and!; try done.
  all: trace_ext; by split_and!.
Qed.

(** The exit of a transaction scope that did not create the connection. *)
Lemma Transactions_exit_inner_coherent exc_type w o w' :
  Transactions_exit drv {| should_close_conn := false |} exc_type w = (o, w') ->
  exists l, trace w' = trace w ++ l /\
    conn_coherent w l w' /\
    (raw w = None -> drv_calls l = []) /\
    (transactions (_db_ctx w) <> 1 -> drv_calls l = []).
Proof.
  intros H. unfold_tx. unfold_lazy. unfold_monad.
  destruct w as [e [[[id r]|] t] tr n]. all: crunch.
  all: repeat (simpl in *; simplify_eq).
  all: trace_ext.
  all: split_and!; [coherent_cases|try done|try done].
  all: try (intros Hne; exfalso; apply Hne;
            match goal with H : (_ =? 0) = true |- _ => apply Z.eqb_eq in H end; lia).
Qed.

End ScopeUse.

Section CodeUse.

Variable drv : driver.

Lemma raw_set_transactions n w :
  raw (set_ctx (set_transactions n (_db_ctx w)) w) = raw w.
Proof. done. Qed.

Lemma conn_coherent_raw w0 w l w' :
  raw w0 = raw w -> conn_coherent w0 l w' -> conn_coherent w l w'.
Proof. unfold conn_coherent. by intros ->. Qed.

(** [_update] inside an initialised context is its body. *)
Lemma _update_nested sql args w :
  is_init (_db_ctx w) = true ->
  _update drv sql args w = _update_body drv sql args w.
Proof.
  intros Hi. unfold _update, with_connection, with_.
  rewrite ConnectionCtx_enter_nested by done.
  destruct (_update_body drv sql args w) as [[]]; done.
Qed.

Lemma _update_coherent sql args w o w' :
  is_init (_db_ctx w) = true ->
  _update drv sql args w = (o, w') ->
  exists l, trace w' = trace w ++ l /\
    conn_coherent w l w' /\ cleanups l = [] /\ inits l = [] /\
    (0 < transactions (_db_ctx w) -> tx_calls l = []).
Proof.
  intros Hi. rewrite _update_nested by done. intros H.
  destruct (is_init_Some _ Hi) as [lz Hlz].
  destruct (_update_body_spec _ _ _ _ _ _ _ Hlz H) as (_ & _ & _ & l0 & Hl0 & Hdrv & _).
  destruct (_update_body_coherent _ _ _ _ _ _ _ Hlz H) as (_ & l & Hl & Hcoh & _ & Htx & _).
  assert (l0 = l) as -> by (rewrite Hl in Hl0; by apply app_inv_head in Hl0).
  apply is_drv_quiet in Hdrv as (_ & _ & Hcl & Hin).
  exists l. split_and!; [done..|]. intros Hpos. apply Htx. lia.
Qed.

(** Code that runs inside an initialised context: it uses the connection
    coherently, calls neither [init] nor [cleanup], and, when the depth is
    positive, sends neither commit nor rollback to the driver. *)
Lemma run_coherent p : forall w o w',
  is_init (_db_ctx w) = true ->
  run drv p w = (o, w') ->
  exists l, trace w' = trace w ++ l /\
    conn_coherent w l w' /\ cleanups l = [] /\ inits l = [] /\
    (0 < transactions (_db_ctx w) -> tx_calls l = []).
Proof.
  induction p as [| |p IHp q IHq|p IHp q IHq|sql args|table kwargs|p IHp|p IHp];
    intros w o w' Hi; cbn [run].
  - intros [= <- <-]. exists []. rewrite app_nil_r.
    split_and!; [done|apply conn_coherent_nil|done..].
  - intros [= <- <-]. exists []. rewrite app_nil_r.
    split_and!; [done|apply conn_coherent_nil|done..].
  - unfold bind. destruct (run drv p w) as [[[]|e] w1] eqn:Hp.
    + pose proof Hp as Hs. apply run_spec in Hs as (Ht1 & _ & Hi1 & _); [|by rewrite Hi].
      apply IHp in Hp as (l1 & Hl1 & Hc1 & Hcl1 & Hin1 & Htx1); [|done].
      intros Hq. apply IHq in Hq as (l2 & Hl2 & Hc2 & Hcl2 & Hin2 & Htx2); [|auto].
      exists (l1 ++ l2). split_and!.
      * by rewrite Hl2, Hl1, <- app_assoc.
      * by apply (conn_coherent_app w l1 w1).
      * obs. by rewrite Hcl1, Hcl2.
      * obs. by rewrite Hin1, Hin2.
      * intros Hpos. obs. rewrite Htx1, Htx2; [done|lia|done].
    + intros [= <- <-]. by apply IHp in Hp.
  - unfold try_except. destruct (run drv p w) as [[[]|e] w1] eqn:Hp.
    + intros [= <- <-]. by apply IHp in Hp.
    + pose proof Hp as Hs. apply run_spec in Hs as (Ht1 & _ & Hi1 & _); [|by rewrite Hi].
      apply IHp in Hp as (l1 & Hl1 & Hc1 & Hcl1 & Hin1 & Htx1); [|done].
      intros Hq. apply IHq in Hq as (l2 & Hl2 & Hc2 & Hcl2 & Hin2 & Htx2); [|auto].
      exists (l1 ++ l2). split_and!.
      * by rewrite Hl2, Hl1, <- app_assoc.
      * by apply (conn_coherent_app w l1 w1).
      * obs. by rewrite Hcl1, Hcl2.
      * obs. by rewrite Hin1, Hin2.
      * intros Hpos. obs. rewrite Htx1, Htx2; [done|lia|done].
  - unfold bind, ret, update. destruct (_update drv sql args w) as [ou w1] eqn:Hu.
    intros H. assert (w' = w1) as -> by (destruct ou; simpl in H; congruence).
    by apply _update_coherent in Hu.
  - unfold bind, ret, raise, insert. destruct kwargs as [|kv kwargs].
    + intros [= <- <-]. exists []. rewrite app_nil_r.
      split_and!; [done|apply conn_coherent_nil|done..].
    + destruct (_update drv _ _ w) as [ou w1] eqn:Hu.
      intros H. assert (w' = w1) as -> by (destruct ou; simpl in H; congruence).
      by apply _update_coherent in Hu.
  - unfold with_connection, with_. rewrite ConnectionCtx_enter_nested by done.
    destruct (run drv p w) as [ob w1] eqn:Hp. simpl. intros [= <- <-].
    by apply IHp in Hp.
  - unfold with_transaction, with_. rewrite Transactions_enter_nested by done.
    set (w0 := set_ctx _ w).
    assert (is_init (_db_ctx w0) = true) as Hi0 by done.
    destruct (run drv p w0) as [ob w1] eqn:Hp.
    pose proof Hp as Hs. apply run_spec in Hs as (Ht1 & _ & _); [|by rewrite Hi0].
    apply IHp in Hp as (l1 & Hl1 & Hc1 & Hcl1 & Hin1 & Htx1); [|done].
    destruct (Transactions_exit drv _ (exc_of ob) w1) as [oe w2] eqn:Hx.
    pose proof Hx as Hxs.
    apply Transactions_exit_spec in Hxs as (_ & _ & _ & _ & l2' & Hl2' & _ & Hin2 & Hcl2 & _).
    apply Transactions_exit_inner_coherent in Hx as (l2 & Hl2 & Hc2 & _ & Hq2).
    assert (l2' = l2) as -> by (rewrite Hl2 in Hl2'; by apply app_inv_head in Hl2').
    intros H. assert (w' = w2) as -> by (destruct oe as [[]|]; congruence).
    exists (l1 ++ l2). simpl in *. split_and!.
    + by rewrite Hl2, Hl1, <- app_assoc.
    + apply (conn_coherent_raw w0); [done|]. by apply (conn_coherent_app w0 l1 w1).
    + obs. by rewrite Hcl1, Hcl2.
    + obs. by rewrite Hin1, Hin2.
    + intros Hpos. obs. rewrite Htx1 by lia.
      destruct (drv_calls_nil_quiet l2) as (-> & _); [|done].
      apply Hq2. lia.
Qed.

(** Code that issues no statement, run while no connection is open, makes no
    driver call and leaves no connection open. *)
Lemma run_no_statement p : forall w o w',
  no_statement p = true -> raw w = None ->
  run drv p w = (o, w') ->
  raw w' = None /\ exists l, trace w' = trace w ++ l /\ drv_calls l = [].
Proof.
  induction p as [| |p IHp q IHq|p IHp q IHq|sql args|table kwargs|p IHp|p IHp];
    intros w o w' Hns Hr; cbn [run no_statement] in *; try done.
  - intros [= <- <-]. split; [done|]. exists []. by rewrite app_nil_r.
  - intros [= <- <-]. split; [done|]. exists []. by rewrite app_nil_r.
  - apply andb_prop in Hns as [Hp Hq]. unfold bind.
    destruct (run drv p w) as [[[]|e] w1] eqn:Hrun;
      apply IHp in Hrun as (Hr1 & l1 & Hl1 & Hd1); try done.
    + intros (Hr2 & l2 & Hl2 & Hd2)%IHq; [|done..]. split; [done|].
      exists (l1 ++ l2). split; [by rewrite Hl2, Hl1, <- app_assoc|].
      obs. by rewrite Hd1, Hd2.
    + intros [= <- <-]. eauto.
  - apply andb_prop in Hns as [Hp Hq]. unfold try_except.
    destruct (run drv p w) as [[[]|e] w1] eqn:Hrun;
      apply IHp in Hrun as (Hr1 & l1 & Hl1 & Hd1); try done.
    + intros [= <- <-]. eauto.
    + intros (Hr2 & l2 & Hl2 & Hd2)%IHq; [|done..]. split; [done|].
      exists (l1 ++ l2). split; [by rewrite Hl2, Hl1, <- app_assoc|].
      obs. by rewrite Hd1, Hd2.
  - unfold with_connection, with_. destruct (is_init (_db_ctx w)) eqn:Hi.
    + rewrite ConnectionCtx_enter_nested by done.
      destruct (run drv p w) as [ob w1] eqn:Hrun. simpl. intros [= <- <-].
      by apply IHp in Hrun.
    + rewrite ConnectionCtx_enter_outer, Dbctx_init_eq by done. cbn [snd].
      set (w0 := {| engine := engine w; _db_ctx := _; trace := _; next_id := _ |}).
      destruct (run drv p w0) as [ob w1] eqn:Hrun.
      apply IHp in Hrun as (Hr1 & l1 & Hl1 & Hd1); [|done..].
      unfold ConnectionCtx_exit. cbn [should_cleanup].
      destruct (Dbctx_cleanup drv w1) as [oc w2] eqn:Hc.
      apply Dbctx_cleanup_closes in Hc
        as (Hr2 & _ & l2 & Hl2 & _ & _ & _ & _ & _ & _ & _ & _ & Hd2 & _).
      intros H. assert (w' = w2) as -> by (destruct oc as [[]|]; congruence).
      split; [done|]. exists (EvCall CtxInit :: l1 ++ l2). split.
      * rewrite Hl2, Hl1. simpl. by rewrite <- !app_assoc.
      * obs. by rewrite Hd1, Hd2.
  - unfold with_transaction, with_. destruct (is_init (_db_ctx w)) eqn:Hi.
    + rewrite Transactions_enter_nested by done.
      set (w0 := set_ctx _ w).
      destruct (run drv p w0) as [ob w1] eqn:Hrun.
      apply IHp in Hrun as (Hr1 & l1 & Hl1 & Hd1); [|done..].
      destruct (Transactions_exit drv _ (exc_of ob) w1) as [oe w2] eqn:Hx.
      apply Transactions_exit_inner_coherent in Hx as (l2 & Hl2 & Hc2 & Hd2 & _).
      intros H. assert (w' = w2) as -> by (destruct oe as [[]|]; congruence).
      destruct Hc2 as (_ & _ & Ho2 & _). rewrite Hr1 in Ho2.
      destruct (drv_calls_nil_quiet l2 (Hd2 Hr1)) as (_ & Ho2' & _).
      rewrite Ho2' in Ho2. split; [by destruct (raw w2)|].
      exists (l1 ++ l2). split; [by rewrite Hl2, Hl1, <- app_assoc|].
      obs. by rewrite Hd1, Hd2.
    + rewrite Transactions_enter_outer by done.
      set (w0 := {| engine := engine w; _db_ctx := _; trace := _; next_id := _ |}).
      destruct (run drv p w0) as [ob w1] eqn:Hrun.
      apply IHp in Hrun as (Hr1 & l1 & Hl1 & Hd1); [|done..].
      unfold Transactions_exit, try_finally, bind at 1 2, mark, modify. simpl.
      destruct (Transactions_exit_try drv (exc_of ob) _) as [o1 w2] eqn:Htry.
      apply Transactions_exit_try_coherent in Htry
        as (Hctx2 & l2 & Hl2 & _ & _ & _ & _ & _ & Hd2 & _).
      destruct (Dbctx_cleanup drv w2) as [oc w3] eqn:Hc.
      apply Dbctx_cleanup_closes in Hc
        as (Hr3 & _ & l3 & Hl3 & _ & _ & _ & _ & _ & _ & _ & _ & Hd3 & _).
      assert (raw w2 = None) as Hr2 by (unfold raw in *; by rewrite Hctx2).
      intros H.
      assert (w' = w3) as -> by (destruct oc as [[]|], o1 as [[]|]; simpl in H; congruence).
      split; [done|].
      exists (EvCall CtxInit :: l1 ++ EvCall (TxExit (bool_decide (exc_of ob ≠ None))) :: l2 ++ l3).
      split.
      * rewrite Hl3, Hl2. simpl. rewrite Hl1. simpl. by rewrite <- !app_assoc.
      * obs. rewrite Hd1, Hd3 by done. rewrite Hd2; [done|exact Hr1].
Qed.

End CodeUse.

(** ** Scopes and the connection *)

Section ScopeTheorems.

Variable drv : driver.

(** A connection scope that creates the context, around coherent code. *)
Lemma with_connection_outer_one_connection {A} (func : M world A) (w : world) :
  coherent_code func ->
  is_init (_db_ctx w) = false ->
  one_connection_used w (snd (with_connection drv func w)).
Proof.
  intros Hfunc Hi. unfold with_connection, with_.
  rewrite ConnectionCtx_enter_outer, Dbctx_init_eq by done. cbn [snd].
  set (w0 := {| engine := engine w; _db_ctx := _; trace := _; next_id := _ |}).
  destruct (func w0) as [ob w1] eqn:Hrun.
  apply Hfunc in Hrun as (l1 & Hl1 & Hc1 & _ & Ho1 & Hi1 & Hb1); [|done].
  change (raw w0) with (@None nat) in Ho1.
  unfold ConnectionCtx_exit. cbn [should_cleanup].
  destruct (Dbctx_cleanup drv w1) as [oc w2] eqn:Hc.
  apply Dbctx_cleanup_closes in Hc
    as (Hr2 & _ & l2 & Hl2 & Hc2 & Hi2 & Ho2 & Hco2 & Hcc2 & _).
  assert (snd (let (o0, s3) := (oc, w2) in
               match o0 with Ret _ => (ob, s3) | Raise e => (Raise e, s3) end) = w2)
    as -> by (by destruct oc as [[]|]).
  unfold one_connection_used.
  rewrite (new_events_app w w2 (EvCall CtxInit :: l1 ++ l2))
    by (rewrite Hl2, Hl1; simpl; by rewrite <- !app_assoc).
  exists (raw w1). obs. rewrite Ho1, Hc1, Hc2, Ho2, Hi2, Hb1, Hco2, Hcc2.
  split_and!; [by rewrite app_nil_r|done| |by rewrite !app_nil_r|done].
  apply Forall_app. split; [done|]. destruct (raw w1); by repeat constructor.
Qed.

Lemma run_coherent_code p : coherent_code (run drv p).
Proof.
  intros w o w' Hi Hrun. apply run_coherent in Hrun as (l & ? & ? & _); eauto.
Qed.

(** X6.  Inside a transaction scope no commit and no rollback reaches the
    driver, whatever the code does: statements, nested scopes of both kinds,
    exceptions raised and caught.  What the statements did stays uncommitted
    until the outermost transaction scope exits. *)
Theorem no_commit_inside_transaction (p : prog) (w : world) :
  is_init (_db_ctx w) = true ->
  0 < transactions (_db_ctx w) ->
  tx_calls (new_events w (snd (run drv p w))) = [].
Proof.
  intros Hi Hpos. destruct (run drv p w) as [o w'] eqn:Hrun.
  apply run_coherent in Hrun as (l & Hl & _ & _ & _ & Htx); [|done].
  simpl. rewrite (new_events_app _ _ _ Hl). by apply Htx.
Qed.

(** X7.  The connection is opened lazily: code that issues no statement,
    however it nests scopes, raises and catches, makes no driver call at all
    when it starts with no connection open, and ends with none open. *)
Theorem statement_free_code_makes_no_driver_call (p : prog) (w : world) :
  no_statement p = true ->
  raw w = None ->
  drv_calls (new_events w (snd (run drv p w))) = [] /\
  raw (snd (run drv p w)) = None.
Proof.
  intros Hns Hr. destruct (run drv p w) as [o w'] eqn:Hrun.
  apply run_no_statement in Hrun as (Hr' & l & Hl & Hd); [|done..].
  simpl. by rewrite (new_events_app _ _ _ Hl).
Qed.

(** X8.  A scope entered without a context, of either kind and around any
    code: at most one connection is opened in it, that connection is closed
    by the scope's exit and nothing else is closed, every driver call in the
    scope goes to that connection, every cursor is closed, and afterwards
    the context holds no open connection.  This is so on every path, also
    when driver calls fail. *)
Theorem outermost_scope_uses_one_connection (p : prog) (w : world) :
  is_init (_db_ctx w) = false ->
  one_connection_used w (snd (run drv (WithConnection p) w)) /\
  one_connection_used w (snd (run drv (WithTransaction p) w)).
Proof.
  intros Hi. split.
  { apply with_connection_outer_one_connection; [apply run_coherent_code|done]. }
  cbn [run]. unfold with_transaction, with_.
  rewrite Transactions_enter_outer by done.
  set (w0 := {| engine := engine w; _db_ctx := _; trace := _; next_id := _ |}).
  destruct (run drv p w0) as [ob w1] eqn:Hrun.
  apply run_coherent in Hrun as (l1 & Hl1 & (Hc1 & _ & Ho1 & Hi1 & Hb1) & _); [|done].
  change (raw w0) with (@None nat) in Ho1.
  unfold Transactions_exit, try_finally, bind at 1 2, mark, modify. simpl.
  destruct (Transactions_exit_try drv (exc_of ob) _) as [o1 w2] eqn:Htry.
  apply Transactions_exit_try_coherent in Htry
    as (Hctx2 & l2 & Hl2 & Ho2 & Hc2 & Hco2 & Hcc2 & Hi2 & _).
  destruct (Dbctx_cleanup drv w2) as [oc w3] eqn:Hc.
  apply Dbctx_cleanup_closes in Hc
    as (Hr3 & _ & l3 & Hl3 & Hc3 & Hi3 & Ho3 & Hco3 & Hcc3 & _).
  assert (raw w2 = raw w1) as Hr2 by (unfold raw; by rewrite Hctx2).
  match goal with |- one_connection_used _ (snd ?r) =>
    assert (snd r = w3) as -> by (by destruct oc as [[]|], o1 as [[]|]) end.
  unfold one_connection_used.
  rewrite (new_events_app w w3
             (EvCall CtxInit :: l1 ++
              EvCall (TxExit (bool_decide (exc_of ob ≠ None))) :: l2 ++ l3)).
  2:{ rewrite Hl3, Hl2. simpl. rewrite Hl1. simpl. by rewrite <- !app_assoc. }
  exists (raw w1). obs.
  rewrite Ho1, Hc1, Ho2, Hc2, Hc3, Ho3, Hi3, Hb1, Hco2, Hcc2, Hco3, Hcc3, Hr2.
  split_and!; [by rewrite !app_nil_r|done| |by rewrite !app_nil_r|done].
  apply Forall_app. split; [done|]. apply Forall_app. split; [done|].
  destruct (raw w1); by repeat constructor.
Qed.

(** X9.  When [close] raises in [cleanup], the context keeps its lazy
    connection: it stays initialised, so no later scope creates or cleans up
    the context again, and whatever connection later code opens is never
    closed. *)
Theorem failed_close_leaves_context_initialised (w : world) (lz : LazyConnection)
    (c : nat) (p : prog) :
  connection (_db_ctx w) = Some lz ->
  lz_connection lz = Some c ->
  drv_fails drv (trace w ++ [EvCall CtxCleanup]) c OpClose = true ->
  let w1 := snd (Dbctx_cleanup drv w) in
  let w2 := snd (run drv p w1) in
  fst (Dbctx_cleanup drv w) = Raise DriverError /\
  is_init (_db_ctx w1) = true /\ raw w1 = None /\
  is_init (_db_ctx w2) = true /\
  cleanups (new_events w1 w2) = [] /\
  closes (new_events w1 w2) = [] /\
  opens (new_events w1 w2) = option_list (raw w2).
Proof.
  intros Hc Hr Hfail w1 w2. subst w1 w2.
  rewrite (Dbctx_cleanup_open drv w lz c Hc Hr). rewrite Hfail. cbn [negb fst snd].
  set (w1 := {| engine := engine w; _db_ctx := _; trace := _; next_id := _ |}).
  assert (is_init (_db_ctx w1) = true) as Hi1 by done.
  assert (raw w1 = None) as Hr1 by done.
  destruct (run drv p w1) as [o w2] eqn:Hrun. cbn [snd].
  pose proof Hrun as Hs. apply run_spec in Hs as (_ & _ & Hi2 & _); [|by rewrite Hi1].
  apply run_coherent in Hrun as (l & Hl & (Hcl & _ & Ho & _) & Hcu & _); [|done].
  rewrite (new_events_app _ _ _ Hl), Hr1 in *.
  split_and!; auto.
Qed.

End ScopeTheorems.

Lemma no_commit_inside_transaction_witness :
  tx_calls
    (new_events (fst (in_transaction ok_driver))
       (snd (run ok_driver
               (Seq (Update sample_sql sample_args)
                    (WithTransaction (Update sample_sql sample_args)))
               (fst (in_transaction ok_driver))))) = [].
Proof.
  apply (no_commit_inside_transaction ok_driver
           (Seq (Update sample_sql sample_args)
                (WithTransaction (Update sample_sql sample_args)))
           (fst (in_transaction ok_driver))); reflexivity.
Defined.

Lemma statement_free_code_makes_no_driver_call_witness :
  drv_calls
    (new_events main_world
       (snd (run ok_driver (WithTransaction (WithConnection (TryExcept RaiseStmt Pass)))
               main_world))) = [] /\
  raw (snd (run ok_driver (WithTransaction (WithConnection (TryExcept RaiseStmt Pass)))
              main_world)) = None.
Proof.
  apply (statement_free_code_makes_no_driver_call ok_driver
           (WithTransaction (WithConnection (TryExcept RaiseStmt Pass))) main_world);
    reflexivity.
Defined.

Lemma outermost_scope_uses_one_connection_witness :
  one_connection_used main_world
    (snd (run commit_failing_driver (WithConnection caught_inner_raise) main_world)) /\
  one_connection_used main_world
    (snd (run commit_failing_driver (WithTransaction caught_inner_raise) main_world)).
Proof.
  apply (outermost_scope_uses_one_connection commit_failing_driver caught_inner_raise
           main_world).
  reflexivity.
Defined.

Lemma failed_close_leaves_context_initialised_witness :
  let w := fst (in_transaction close_failing_driver) in
  let w1 := snd (Dbctx_cleanup close_failing_driver w) in
  let w2 := snd (run close_failing_driver (Update sample_sql sample_args) w1) in
  fst (Dbctx_cleanup close_failing_driver w) = Raise DriverError /\
  is_init (_db_ctx w1) = true /\ raw w1 = None /\
  is_init (_db_ctx w2) = true /\
  cleanups (new_events w1 w2) = [] /\
  closes (new_events w1 w2) = [] /\
  opens (new_events w1 w2) = option_list (raw w2).
Proof.
  apply (failed_close_leaves_context_initialised close_failing_driver
           (fst (in_transaction close_failing_driver))
           {| lz_id := 0; lz_connection := Some 1%nat |} 1%nat
           (Update sample_sql sample_args)); reflexivity.
Defined.

(** After the failed close the next statement opens a new connection and nothing
    closes it. *)
Example connection_left_open_after_failed_close :
  let w := fst (in_transaction close_failing_driver) in
  let w1 := snd (Dbctx_cleanup close_failing_driver w) in
  let w2 := snd (run close_failing_driver (Update sample_sql sample_args) w1) in
  opens (new_events w1 w2) = [2%nat] /\ raw w2 = Some 2%nat.
Proof. by vm_compute. Qed.

(** ** [_select] *)

Section SelectUse.

Variable drv : driver.
Variable rs : result_set.

Ltac coherent_cases :=
  unfold conn_coherent, raw; simpl;
  split_and!; try done; try (intros; simplify_eq; done);
  try match goal with |- context [match ?r with _ => _ end] => by destruct r end;
  repeat constructor; try done.

(** [_select] inside an initialised context. *)
Lemma _select_body_coherent sql one args w lz o w' :
  connection (_db_ctx w) = Some lz ->
  _select_body drv rs sql one args w = (o, w') ->
  is_init (_db_ctx w') = true /\
  transactions (_db_ctx w') = transactions (_db_ctx w) /\
  exists l, trace w' = trace w ++ l /\
    conn_coherent w l w' /\
    Forall is_drv l /\
    tx_calls l = [] /\
    (engine w = None -> raw w = None -> o = Raise AttributeError /\ l = []).
Proof.
  intros Hc H. unfold _select_body, fetchone, fetchall in H. unfold_lazy. unfold_monad.
  destruct w as [e [cn t] tr n]. simpl in Hc. subst cn. destruct lz as [id r].
  destruct one.
  all: crunch. all: repeat (simpl in *; simplify_eq).
  all: split; [done|]; split; [done|].
  all: trace_ext.
  all: split_and!; [coherent_cases|repeat constructor; by do 3 eexists|done|try done].
Qed.



End SelectUse.

Section SelectResults.

Variable drv : driver.
Variable rs : result_set.

(** With a driver that never fails, [_select] returns what it builds from
    the description and the rows. *)
Lemma _select_never_fails sql one args w names rows :
  (forall t c op, drv_fails drv t c op = false) ->
  (forall t, rs_fetch_fails rs t = false) ->
  (forall t, rs_description rs t = names) ->
  (forall t, rs_rows rs t = rows) ->
  engine w <> None ->
  fst (_select drv rs sql one args w) =
  Ret (let names := match names with [] => None | _ :: _ => Some names end in
       if one
       then match head rows with
            | None | Some [] => SelNone
            | Some values => make_field names values
            end
       else make_fields names rows).
Proof.
  intros Hnf Hff Hdesc Hrows He.
  unfold _select, with_connection, with_, ConnectionCtx_enter, ConnectionCtx_exit,
    Dbctx_init, Dbctx_cleanup, _select_body, fetchone, fetchall.
  unfold_lazy. unfold_monad.
  destruct w as [[e|] [[[id [c|]]|] t] tr n]; [| | |done..]; simpl;
    repeat (rewrite ?Hnf, ?Hff, ?Hdesc, ?Hrows; simpl);
    destruct one; simpl; repeat (rewrite ?Hnf, ?Hff, ?Hdesc, ?Hrows; simpl);
    try destruct (head rows) as [[|? ?]|]; simpl;
    repeat (rewrite ?Hnf, ?Hff, ?Hdesc, ?Hrows; simpl); done.
Qed.

(** Whatever the driver does, [select_one] on a result without rows returns
    nothing but [None]. *)
Lemma select_one_no_row sql args w x w' :
  (forall t, rs_rows rs t = []) ->
  select_one drv rs sql args w = (Ret x, w') -> x = SelNone.
Proof.
  intros Hrows H.
  unfold select_one, _select, with_connection, with_, ConnectionCtx_enter,
    ConnectionCtx_exit, Dbctx_init, Dbctx_cleanup, _select_body, fetchone, fetchall in H.
  unfold_lazy. unfold_monad.
  destruct w as [e [[[id r]|] t] tr n]; simpl in H;
    repeat (rewrite ?Hrows in H; simpl in H).
  all: crunch; repeat (rewrite ?Hrows in *; simpl in *; simplify_eq); done.
Qed.

End SelectResults.

Section SelectTheorems.

Variable drv : driver.
Variable rs : result_set.

(** With a driver that never fails, [_select] returns. *)
Lemma _select_returns sql one args w :
  (forall t c op, drv_fails drv t c op = false) ->
  (forall t, rs_fetch_fails rs t = false) ->
  engine w <> None ->
  exists x, fst (_select drv rs sql one args w) = Ret x.
Proof.
  intros Hnf Hff He.
  unfold _select, with_connection, with_, ConnectionCtx_enter, ConnectionCtx_exit,
    Dbctx_init, Dbctx_cleanup, _select_body, fetchone, fetchall.
  unfold_lazy. unfold_monad.
  destruct w as [[e|] [[[id [c|]]|] t] tr n]; [| | |done..]; simpl;
    repeat (rewrite ?Hnf, ?Hff; simpl);
    destruct one; simpl; repeat (rewrite ?Hnf, ?Hff; simpl);
    try destruct (head (rs_rows rs _)) as [[|? ?]|]; simpl;
    repeat (rewrite ?Hnf, ?Hff; simpl); eauto.
Qed.

(** X10.  [select_one] on a result without rows gives [None]: whenever it
    returns, it returns [None], never an empty record and never a
    [NameError], also when the cursor has no description; and it does return
    when no driver call fails. *)
Theorem select_one_without_rows_returns_none (sql : string) (args : list pyval)
    (w : world) :
  (forall t, rs_rows rs t = []) ->
  (forall x w', select_one drv rs sql args w = (Ret x, w') -> x = SelNone) /\
  ((forall t c op, drv_fails drv t c op = false) ->
   (forall t, rs_fetch_fails rs t = false) ->
   engine w <> None ->
   fst (select_one drv rs sql args w) = Ret SelNone).
Proof.
  intros Hrows. split.
  - intros x w'. by apply (select_one_no_row drv rs sql args w x w').
  - intros Hnf Hff He.
    destruct (_select_returns sql true args w Hnf Hff He) as [x Hx].
    unfold select_one. rewrite Hx. f_equal.
    destruct (_select drv rs sql true args w) as [o w'] eqn:Hs. simpl in Hx. subst o.
    by apply (select_one_no_row drv rs sql args w x w').
Qed.

(** X11.  [select] gives one record per row, in the order of the rows; with
    distinct column names and rows as long as the description, the record of
    a row holds under every column name the value at that column's position,
    and nothing under any other name. *)
Theorem select_returns_rows_in_order (sql : string) (args : list pyval) (w : world)
    (names : list string) (rows : list (list pyval)) :
  (forall t c op, drv_fails drv t c op = false) ->
  (forall t, rs_fetch_fails rs t = false) ->
  (forall t, rs_description rs t = names) ->
  (forall t, rs_rows rs t = rows) ->
  engine w <> None ->
  names <> [] ->
  NoDup names ->
  Forall (fun row => length row = length names) rows ->
  exists recs,
    fst (select drv rs sql args w) = Ret (SelList recs) /\
    length recs = length rows /\
    (forall i row r, rows !! i = Some row -> recs !! i = Some r ->
       (forall j name v, names !! j = Some name -> row !! j = Some v ->
                         r !! name = Some v) /\
       (forall name, name ∈ names -> is_Some (r !! name)) /\
       (forall name, name ∉ names -> r !! name = None)).
Proof.
  intros Hnf Hff Hdesc Hrows He Hne Hnd Hlen.
  exists (map (fun values => Field___init__ names values ∅) rows).
  unfold select. rewrite (_select_never_fails drv rs sql false args w names rows) by done.
  split_and!.
  - destruct names; [done|]. by destruct rows.
  - by rewrite length_map.
  - intros i row r Hrow Hr. rewrite list_lookup_fmap, Hrow in Hr. simplify_eq/=.
    assert (forall j name v, names !! j = Some name -> row !! j = Some v ->
              Field___init__ names row ∅ !! name = Some v) as Hcols.
    { intros j name v Hname Hv.
      apply (Field___init___last names row ∅ j); [done..|].
      intros Hin%list_elem_of_lookup. destruct Hin as [k Hk].
      rewrite lookup_drop in Hk. apply lookup_take_Some in Hk as [Hk _].
      pose proof (NoDup_lookup names j (S j + k) name Hnd Hname Hk). lia. }
    split_and!.
    + exact Hcols.
    + intros name [j Hj]%list_elem_of_lookup.
      rewrite Forall_forall in Hlen.
      assert (length row = length names) as Hrl
        by (apply Hlen; apply list_elem_of_lookup; eauto).
      destruct (lookup_lt_is_Some_2 row j) as [v Hv].
      { rewrite Hrl. by eapply lookup_lt_Some. }
      exists v. by apply (Hcols j).
    + intros name Hname. rewrite Field___init___other; [done|].
      intros Hin. apply Hname. by apply (subseteq_take (length row) names).
Qed.


(** X13.  [_select] sends no commit and no rollback to the driver, makes no
    transaction decision and keeps the depth; inside a scope it keeps the
    context initialised and closes no connection, so the connection it
    opened or found stays in use. *)
Theorem select_never_commits (sql : string) (one : bool) (args : list pyval)
    (w : world) :
  (is_init (_db_ctx w) = false -> transactions (_db_ctx w) = 0) ->
  let w' := snd (_select drv rs sql one args w) in
  let l := new_events w w' in
  tx_calls l = [] /\ decisions l = [] /\
  transactions (_db_ctx w') = transactions (_db_ctx w) /\
  (is_init (_db_ctx w) = true ->
   is_init (_db_ctx w') = true /\ closes l = [] /\ cleanups l = [] /\
   forall c, raw w = Some c -> raw w' = Some c).
Proof.
  intros Hinv. unfold _select, with_connection, with_.
  destruct (is_init (_db_ctx w)) eqn:Hi.
  - rewrite ConnectionCtx_enter_nested by done.
    destruct (_select_body drv rs sql one args w) as [ob w1] eqn:Hb.
    destruct (is_init_Some _ Hi) as [lz Hlz].
    destruct (_select_body_coherent drv rs _ _ _ _ _ _ _ Hlz Hb)
      as (Hi1 & Ht1 & l & Hl & (Hcl & Hm & _) & Hdrv & Htx & _).
    apply is_drv_quiet in Hdrv as (Hd & _ & Hcu & _).
    assert (snd (let (o0, s3) := ConnectionCtx_exit drv {| should_cleanup := false |}
                                   (exc_of ob) w1 in
                 match o0 with Ret _ => (ob, s3) | Raise e => (Raise e, s3) end) = w1)
      as -> by done.
    simpl. rewrite (new_events_app _ _ _ Hl). by split_and!.
  - rewrite ConnectionCtx_enter_outer, Dbctx_init_eq by done. cbn [snd].
    set (w0 := {| engine := engine w; _db_ctx := _; trace := _; next_id := _ |}).
    destruct (_select_body drv rs sql one args w0) as [ob w1] eqn:Hb.
    destruct (_select_body_coherent drv rs sql one args w0 _ ob w1 eq_refl Hb)
      as (Hi1 & Ht1 & l & Hl & _ & Hdrv & Htx & _).
    apply is_drv_quiet in Hdrv as (Hd & _ & _ & _).
    unfold ConnectionCtx_exit. cbn [should_cleanup].
    destruct (Dbctx_cleanup drv w1) as [oc w2] eqn:Hc.
    apply Dbctx_cleanup_closes in Hc
      as (_ & Ht2 & l2 & Hl2 & _ & _ & _ & _ & _ & Htx2 & _ & _ & _ & _ & Hd2).
    assert (snd (let (o0, s3) := (oc, w2) in
                 match o0 with Ret _ => (ob, s3) | Raise e => (Raise e, s3) end) = w2)
      as -> by (by destruct oc as [[]|]).
    simpl.
    rewrite (new_events_app w w2 (EvCall CtxInit :: l ++ l2))
      by (rewrite Hl2, Hl; simpl; by rewrite <- !app_assoc).
    obs. rewrite Htx, Htx2, Hd, Hd2, Ht2, Ht1, Hinv by done. by split_and!.
Qed.

End SelectTheorems.

Lemma select_one_without_rows_returns_none_witness :
  (forall x w', select_one commit_failing_driver empty_result "select * from users where id=?"
                  [VInt 9] main_world = (Ret x, w') -> x = SelNone) /\
  ((forall t c op, drv_fails commit_failing_driver t c op = false) ->
   (forall t, rs_fetch_fails empty_result t = false) ->
   engine main_world <> None ->
   fst (select_one commit_failing_driver empty_result "select * from users where id=?"
          [VInt 9] main_world) = Ret SelNone).
Proof.
  apply (select_one_without_rows_returns_none commit_failing_driver empty_result
           "select * from users where id=?" [VInt 9] main_world).
  reflexivity.
Defined.

Lemma select_returns_rows_in_order_witness :
  exists recs,
    fst (select ok_driver users_result "select * from users" [] main_world) =
      Ret (SelList recs) /\
    length recs = length [[VInt 2; VStr "kuang"]; [VInt 3; VStr "guo"]] /\
    (forall i row r,
       [[VInt 2; VStr "kuang"]; [VInt 3; VStr "guo"]] !! i = Some row ->
       recs !! i = Some r ->
       (forall j name v, ["id"; "username"] !! j = Some name -> row !! j = Some v ->
                         r !! name = Some v) /\
       (forall name, name ∈ ["id"; "username"] -> is_Some (r !! name)) /\
       (forall name, name ∉ ["id"; "username"] -> r !! name = None)).
Proof.
  apply (select_returns_rows_in_order ok_driver users_result "select * from users" []
           main_world ["id"; "username"] [[VInt 2; VStr "kuang"]; [VInt 3; VStr "guo"]]);
    try reflexivity; try discriminate.
  - repeat constructor; rewrite ?elem_of_cons, ?elem_of_nil; intuition congruence.
  - repeat constructor.
Defined.


Lemma select_never_commits_witness :
  let w := fst (in_transaction ok_driver) in
  let w' := snd (_select ok_driver users_result "select * from users" false [] w) in
  let l := new_events w w' in
  tx_calls l = [] /\ decisions l = [] /\
  transactions (_db_ctx w') = transactions (_db_ctx w) /\
  (is_init (_db_ctx w) = true ->
   is_init (_db_ctx w') = true /\ closes l = [] /\ cleanups l = [] /\
   forall c, raw w = Some c -> raw w' = Some c).
Proof.
  apply (select_never_commits ok_driver users_result "select * from users" false []
           (fst (in_transaction ok_driver))).
  intros H. discriminate H.
Defined.

(** ** Statements before [create_engine], [insert], placeholders *)

(** X14.  A statement issued before [create_engine], with no connection
    open, raises [AttributeError] without any driver call, and a context it
    created for itself is given up again. *)
Theorem statement_before_create_engine_raises (drv : driver) (rs : result_set)
    (sql : string) (one : bool) (args : list pyval) (w : world) :
  engine w = None ->
  raw w = None ->
  fst (update drv sql args w) = Raise AttributeError /\
  fst (_select drv rs sql one args w) = Raise AttributeError /\
  drv_calls (new_events w (snd (update drv sql args w))) = [] /\
  drv_calls (new_events w (snd (_select drv rs sql one args w))) = [] /\
  (is_init (_db_ctx w) = false ->
   is_init (_db_ctx (snd (update drv sql args w))) = false /\
   is_init (_db_ctx (snd (_select drv rs sql one args w))) = false).
Proof.
  intros He Hr.
  unfold update, _update, _select, with_connection, with_, ConnectionCtx_enter,
    ConnectionCtx_exit, Dbctx_init, Dbctx_cleanup, _update_body, _select_body, new_events.
  unfold_lazy. unfold_monad.
  destruct w as [e [[[id r]|] t] tr n]; unfold raw in Hr; simpl in *; subst; simpl.
  - rewrite drop_all. by split_and!.
  - rewrite <- !app_assoc, !drop_app_length. by split_and!.
Qed.

Lemma statement_before_create_engine_raises_witness :
  fst (update ok_driver sample_sql sample_args fresh_world) = Raise AttributeError /\
  fst (_select ok_driver users_result sample_sql true sample_args fresh_world) =
    Raise AttributeError /\
  drv_calls (new_events fresh_world
               (snd (update ok_driver sample_sql sample_args fresh_world))) = [] /\
  drv_calls (new_events fresh_world
               (snd (_select ok_driver users_result sample_sql true sample_args
                       fresh_world))) = [] /\
  (is_init (_db_ctx fresh_world) = false ->
   is_init (_db_ctx (snd (update ok_driver sample_sql sample_args fresh_world))) = false /\
   is_init (_db_ctx (snd (_select ok_driver users_result sample_sql true sample_args
                            fresh_world))) = false).
Proof.
  apply (statement_before_create_engine_raises ok_driver users_result sample_sql true
           sample_args fresh_world); reflexivity.
Defined.

Lemma count_char_append ch s1 s2 :
  count_char ch (s1 +:+ s2) = (count_char ch s1 + count_char ch s2)%nat.
Proof. induction s1 as [|c s1 IH]; [done|]. simpl. rewrite IH. lia. Qed.

Lemma count_char_concat_placeholders (cols : list string) :
  count_char "?" (String.concat "," (map (fun _ => "?") cols)) = length cols.
Proof.
  induction cols as [|c [|c' cols] IH]; [done|done|].
  change (String.concat "," (map (fun _ => "?") (c :: c' :: cols)))
    with ("?" +:+ "," +:+ String.concat "," (map (fun _ : string => "?") (c' :: cols))).
  rewrite !count_char_append, IH. done.
Qed.

Lemma count_char_concat_columns (cols : list string) :
  Forall no_qmark cols ->
  count_char "?" (String.concat "," (map (fun col => "`" +:+ col +:+ "`") cols)) = 0%nat.
Proof.
  induction cols as [|c [|c' cols] IH]; intros Hq; [done| |].
  - apply Forall_cons in Hq as [Hc _]. unfold no_qmark in Hc.
    change (count_char "?" ("`" +:+ c +:+ "`") = 0%nat).
    rewrite !count_char_append, Hc. done.
  - apply Forall_cons in Hq as [Hc Hq]. unfold no_qmark in Hc.
    change (String.concat "," (map (fun col => "`" +:+ col +:+ "`") (c :: c' :: cols)))
      with (("`" +:+ c +:+ "`") +:+ "," +:+
            String.concat "," (map (fun col => "`" +:+ col +:+ "`") (c' :: cols))).
    rewrite !count_char_append, IH, Hc by done. done.
Qed.

(** X15.  [insert] builds a statement with exactly one placeholder for each
    value it binds, when neither the table name nor a column name contains
    the placeholder character; and with no columns it raises [ValueError]
    and does nothing. *)
Theorem insert_one_placeholder_per_value (drv : driver) (table_name : string)
    (kwargs : list (string * pyval)) (w : world) :
  no_qmark table_name ->
  Forall no_qmark (kwargs.*1) ->
  count_char "?" (insert_sql table_name (kwargs.*1)) = length (kwargs.*2) /\
  (kwargs = [] -> insert drv table_name kwargs w = (Raise ValueError, w)) /\
  (kwargs <> [] ->
   insert drv table_name kwargs w =
   update drv (insert_sql table_name (kwargs.*1)) (kwargs.*2) w).
Proof.
  intros Ht Hc. split_and!.
  - unfold insert_sql. unfold no_qmark in Ht.
    rewrite !count_char_append, Ht, count_char_concat_columns,
      count_char_concat_placeholders by done.
    rewrite !length_fmap. done.
  - by intros ->.
  - by destruct kwargs.
Qed.

Lemma insert_one_placeholder_per_value_witness :
  count_char "?" (insert_sql "users" ([("username", VStr "guowei"); ("age", VInt 3)].*1)) =
    length ([("username", VStr "guowei"); ("age", VInt 3)].*2) /\
  ([("username", VStr "guowei"); ("age", VInt 3)] = [] ->
   insert ok_driver "users" [("username", VStr "guowei"); ("age", VInt 3)] main_world =
   (Raise ValueError, main_world)) /\
  ([("username", VStr "guowei"); ("age", VInt 3)] <> [] ->
   insert ok_driver "users" [("username", VStr "guowei"); ("age", VInt 3)] main_world =
   update ok_driver
     (insert_sql "users" ([("username", VStr "guowei"); ("age", VInt 3)].*1))
     ([("username", VStr "guowei"); ("age", VInt 3)].*2) main_world).
Proof.
  apply (insert_one_placeholder_per_value ok_driver "users"
           [("username", VStr "guowei"); ("age", VInt 3)] main_world).
  - reflexivity.
  - repeat constructor.
Defined.

(** X16.  The placeholder translation replaces every [?], wherever it stands
    in the statement, by the two characters [%s]: no [?] is left, the text
    grows by one character for each [?], and a text without [?] is
    unchanged. *)
Theorem replace_qmark_translates_every_placeholder (sql : string) :
  count_char "?" (replace_qmark sql) = 0%nat /\
  String.length (replace_qmark sql) = (String.length sql + count_char "?" sql)%nat /\
  (no_qmark sql -> replace_qmark sql = sql).
Proof.
  unfold no_qmark. induction sql as [|c sql (IH1 & IH2 & IH3)]; [done|].
  simpl. destruct (Ascii.eqb c "?") eqn:Hc; simpl.
  - split_and!; [done|rewrite IH2; lia|done].
  - rewrite Hc. split_and!; [done|by rewrite IH2|]. intros H. by rewrite IH3.
Qed.

(** ** Transaction chains at the driver, and the depth *)

Section ChainCalls.

Variable drv : driver.

(** What the [try] block of the exit at depth 0 sends to the driver. *)
Lemma Transactions_exit_try_calls exc_type w o w' :
  transactions (_db_ctx w) = 0 ->
  Transactions_exit_try drv exc_type w = (o, w') ->
  exists l, trace w' = trace w ++ l /\
    chain_calls (bool_decide (exc_type ≠ None)) (raw w) (tx_calls l).
Proof.
  intros Ht H.
  unfold Transactions_exit_try, Transactions_commit, Transactions_rollback in H.
  unfold_lazy. unfold_monad.
  destruct w as [e [[[id [c|]]|] t] tr n]; simpl in Ht; subst t.
  all: crunch. all: repeat (simpl in *; simplify_eq).
  all: trace_ext; unfold chain_calls, raw; simpl; eauto.
Qed.

(** X17.  What a chain of nested transaction scopes that starts at depth 0
    sends to the driver as commits and rollbacks: nothing from inside the
    body; then, from the outermost exit, nothing when the chain opened no
    connection, one rollback when the outermost body raised, and else one
    commit, or a failed commit followed by a rollback; all of it on the
    connection the chain used. *)
Theorem transaction_chain_driver_calls (p : prog) (w : world) :
  transactions (_db_ctx w) = 0 ->
  let w1 := snd (Transactions_enter w) in
  let r := run drv p w1 in
  tx_calls (new_events w1 (snd r)) = [] /\
  chain_calls (raised (fst r)) (raw (snd r))
    (tx_calls (new_events w (snd (run drv (WithTransaction p) w)))).
Proof.
  intros Hdepth. cbn [run]. unfold with_transaction, with_.
  destruct (Transactions_enter w) as [oself w1] eqn:Henter.
  assert (exists self l0, oself = Ret self /\ transactions (_db_ctx w1) = 1 /\
            is_init (_db_ctx w1) = true /\ trace w1 = trace w ++ l0 /\ tx_calls l0 = [])
    as (self & l0 & -> & Ht1 & Hi1 & Hl0 & Hx0).
  { destruct (is_init (_db_ctx w)) eqn:Hi.
    - rewrite Transactions_enter_nested in Henter by done.
      injection Henter as <- <-. exists {| should_close_conn := false |}, [].
      split_and!; [done|simpl; lia|done|by rewrite app_nil_r|done].
    - rewrite Transactions_enter_outer in Henter by done.
      injection Henter as <- <-. exists {| should_close_conn := true |}, [EvCall CtxInit].
      by split_and!. }
  cbn [snd]. destruct (run drv p w1) as [ob w2] eqn:Hbody. cbn [fst snd].
  pose proof Hbody as Hs. apply run_spec in Hs as (Ht2 & _); [|by rewrite Hi1].
  apply run_coherent in Hbody as (l1 & Hl1 & _ & _ & _ & Hx1); [|done].
  rewrite (new_events_app _ _ _ Hl1). split; [apply Hx1; lia|].
  unfold Transactions_exit, try_finally, bind at 1 2, mark, modify. simpl.
  destruct (Transactions_exit_try drv (exc_of ob) _) as [o1 w3] eqn:Htry.
  pose proof Htry as Hctx. apply Transactions_exit_try_coherent in Hctx as (Hctx & _).
  apply Transactions_exit_try_calls in Htry as (l2 & Hl2 & Hcalls); [|simpl; lia].
  assert (exists l3 oc w4, (if should_close_conn self then Dbctx_cleanup drv else ret tt) w3
                           = (oc, w4) /\ trace w4 = trace w3 ++ l3 /\ tx_calls l3 = [])
    as (l3 & oc & w4 & Hfin & Hl3 & Hx3).
  { destruct (should_close_conn self).
    - destruct (Dbctx_cleanup drv w3) as [oc w4] eqn:Hc.
      apply Dbctx_cleanup_closes in Hc as (_ & _ & l3 & Hl3 & _ & _ & _ & _ & _ & Hx3 & _).
      by exists l3, oc, w4.
    - exists [], (Ret tt), w3. by rewrite app_nil_r. }
  rewrite Hfin.
  match goal with |- chain_calls _ _ (tx_calls (new_events _ (snd ?r))) =>
    assert (snd r = w4) as -> by (by destruct oc as [[]|], o1 as [[]|], ob) end.
  rewrite (new_events_app w w4
             (l0 ++ l1 ++ EvCall (TxExit (bool_decide (exc_of ob ≠ None))) :: l2 ++ l3)).
  2:{ rewrite Hl3, Hl2. simpl. rewrite Hl1, Hl0. by rewrite <- !app_assoc. }
  obs. rewrite Hx0, Hx1, Hx3, app_nil_r by lia. simpl.
  by rewrite exc_of_raised in Hcalls.
Qed.

(** X18.  In every state that well-nested scopes reach, the depth is the
    number of transaction scopes that are open; so it is 0 again whenever
    all scopes are closed, and a context without a connection has no scope
    open. *)
Theorem depth_counts_open_transaction_scopes (s : mstate) :
  reachable drv s ->
  depth s = tx_count (snd s) /\
  (snd s = [] -> depth s = 0) /\
  (is_init (_db_ctx (fst s)) = false -> snd s = []).
Proof.
  intros Hinv%reachable_minv. destruct s as [w stk].
  pose proof Hinv as (Ht & Hi & _). unfold depth. simpl in *. split_and!.
  - done.
  - intros ->. by rewrite Ht.
  - intros Hn. by destruct (minv_uninit w stk Hinv Hn).
Qed.

End ChainCalls.

Lemma transaction_chain_driver_calls_witness :
  let w1 := snd (Transactions_enter main_world) in
  let r := run commit_failing_driver caught_inner_raise w1 in
  tx_calls (new_events w1 (snd r)) = [] /\
  chain_calls (raised (fst r)) (raw (snd r))
    (tx_calls (new_events main_world
                 (snd (run commit_failing_driver (WithTransaction caught_inner_raise)
                         main_world)))).
Proof.
  apply (transaction_chain_driver_calls commit_failing_driver caught_inner_raise
           main_world).
  reflexivity.
Defined.

Lemma depth_counts_open_transaction_scopes_witness :
  let s := in_transaction ok_driver in
  depth s = tx_count (snd s) /\
  (snd s = [] -> depth s = 0) /\
  (is_init (_db_ctx (fst s)) = false -> snd s = []).
Proof.
  apply (depth_counts_open_transaction_scopes ok_driver (in_transaction ok_driver)).
  exists (main_world, []), [EnterTransaction; Statement sample_sql sample_args].
  split; [split; reflexivity | reflexivity].
Defined.
